(** * SimpleVector: a growable array over an owning buffer

    Shallow embedding of [simple_vector.h].  Every member function of
    [SimpleVector<Type>] becomes a computation in a small state-and-exception
    monad whose state is the object [*this]; the three ways a call can end
    (normal return, a C++ exception leaving the object in some state, a failed
    [assert] or an access outside the allocation) are kept apart.

    Conventions of the model:
    - a buffer is the list of its slots, an iterator is a distance from
      [begin()], a [size_t] is an [N] below 2^64;
    - an allocation may fail, a copy assignment of [Type] may throw, a move
      assignment does not throw and leaves a moved-from value behind;
    - [const Type&] and [Type&&] parameters are values: a reference to an
      element of the container that is being changed is not modelled. *)

From stdpp Require Import base list gmap.
From Stdlib Require Import NArith ZArith Lia.

(** ** Outcomes of a call *)

Inductive exception : Set :=
  | bad_alloc          (* operator new[] could not satisfy the request *)
  | out_of_range       (* thrown by At *)
  | element_exception. (* thrown by a copy assignment of Type *)

(** [Returns a s]: normal completion with result [a], the object is [s].
    [Throws e s]: exception [e] propagates, the object is left as [s].
    [Undefined]: a failed [assert], or a read or write outside the buffer. *)
Inductive outcome (X A : Type) : Type :=
  | Returns (a : A) (s : X)
  | Throws (e : exception) (s : X)
  | Undefined.
Arguments Returns {X A} a s.
Arguments Throws {X A} e s.
Arguments Undefined {X A}.

Definition St (X A : Type) : Type := X → outcome X A.

Definition st_ret {X A} (a : A) : St X A := λ s, Returns a s.

Definition st_bind {X A B} (m : St X A) (k : A → St X B) : St X B :=
  λ s, match m s with
       | Returns a s' => k a s'
       | Throws e s' => Throws e s'
       | Undefined => Undefined
       end.

Notation "'let*' x ':=' m 'in' k" := (st_bind m (λ x, k))
  (at level 10, x pattern, m at level 100, k at level 200,
   format "'[v' 'let*'  x  ':='  m  'in' '/' k ']'").
Notation "m '>>' k" := (st_bind m (λ _, k))
  (at level 100, k at level 200, right associativity,
   format "'[v' m  '>>' '/' k ']'").

Definition get {X} : St X X := λ s, Returns s s.
Definition put {X} (s : X) : St X () := λ _, Returns () s.
Definition throw {X A} (e : exception) : St X A := λ s, Throws e s.
Definition undefined {X A} : St X A := λ _, Undefined.

(** [assert(b)] *)
Definition assert {X} (b : bool) : St X () :=
  if b then st_ret () else undefined.

(** The state in which a call leaves the object, when it leaves one. *)
Definition final_state {X A} (o : outcome X A) : option X :=
  match o with
  | Returns _ s => Some s
  | Throws _ s => Some s
  | Undefined => None
  end.

(** What a call establishes: [R] on the result and the state when it
    returns, [E] on the state when it throws. *)
Definition triple {X A} (m : St X A) (s : X) (R : A → X → Prop) (E : X → Prop) : Prop :=
  match m s with
  | Returns a s' => R a s'
  | Throws _ s' => E s'
  | Undefined => True
  end.

(** As [triple], for a call that must not end in [Undefined]. *)
Definition defined_triple {X A} (m : St X A) (s : X)
    (R : A → X → Prop) (E : X → Prop) : Prop :=
  match m s with
  | Returns a s' => R a s'
  | Throws _ s' => E s'
  | Undefined => False
  end.

(** The call ends otherwise than in [Undefined]. *)
Definition ends_defined {X A} (m : St X A) (s : X) : Prop :=
  defined_triple m s (λ _ _, True) (λ _, True).

(** ** size_t *)

(** [size_t] values are kept in [N]; the arithmetic of the class that can
    leave the 64-bit range ([size_ + 1], [capacity_ * 2], [size_--]) is
    wrapped explicitly. *)
Definition SIZE_MAX : N := 2 ^ 64 - 1.
Definition wrap (x : N) : N := (x mod 2 ^ 64)%N.

(** ** The element type *)

Class Element (T : Type) := {
  (* Type{} *)
  value_init : T;
  (* whether copy-assigning from this value completes ([false]: it throws) *)
  copy_ok : T → bool;
  (* what is left in an object after it has been moved from *)
  moved_from : T → T;
  (* operator< and operator== of Type *)
  elem_lt : T → T → bool;
  elem_eq : T → T → bool
}.

(** ** The allocator *)

(** The state of the heap is fixed while the calls studied here run; no
    call allocates more than once. *)
Class Heap (T : Type) := {
  (* whether the heap can satisfy a request for that many slots *)
  heap_grants : N → bool;
  (* what slot i of a fresh allocation holds before it is written *)
  indeterminate : nat → T
}.

(** No request of more than PTRDIFF_MAX bytes is ever satisfied, so an
    allocation never has more slots than this. *)
Definition max_slots : N := 2 ^ 63 - 1.

Section Vector.
Context {T : Type} `{Element T} `{Heap T}.

(** ** ArrayPtr *)

(** Modelled from the spec: [array_ptr.h] is not among the sources.  The
    Owning Buffer of the specification holds one allocation of a fixed number
    of slots; capacity 0 is the null buffer and asks the allocator for
    nothing; construction fails with the allocation error when the request
    cannot be satisfied.  A buffer is the list of its slots. *)
Abbreviation ArrayPtr := (list T) (only parsing).

(** Modelled from the spec: the slots of a new allocation of the missing
    [array_ptr.h], before anything is written to them. *)
Definition fresh_buffer (size : N) : ArrayPtr :=
  indeterminate <$> seq 0 (N.to_nat size).

(** Modelled from the spec: whether the constructor of the missing
    [array_ptr.h] succeeds for [size] slots; a request for no slot always
    does. *)
Definition can_allocate (size : N) : bool :=
  (size =? 0)%N || ((size <=? max_slots)%N && heap_grants size).

(** Modelled from the spec: the constructor [ArrayPtr(size_t size)] of the
    missing [array_ptr.h], as the Owning Buffer's Construct(capacity). *)
Definition ArrayPtr_new {X} (size : N) : St X ArrayPtr :=
  if (size =? 0)%N then st_ret []
  else if (size <=? max_slots)%N && heap_grants size
       then st_ret (fresh_buffer size)
       else throw bad_alloc.

(** ** Slot accesses (computations on one buffer) *)

Definition load (i : nat) : St ArrayPtr T :=
  λ buf, match buf !! i with
         | Some x => Returns x buf
         | None => Undefined
         end.

(** [p[i] = std::move(x)]: a move assignment, which does not throw. *)
Definition store (i : nat) (x : T) : St ArrayPtr () :=
  λ buf, if i <? length buf then Returns () (<[i:=x]> buf) else Undefined.

(** [p[i] = x]: a copy assignment, which may throw and then leaves the
    slot as it was. *)
Definition store_copy (i : nat) (x : T) : St ArrayPtr () :=
  λ buf, if i <? length buf
         then if copy_ok x then Returns () (<[i:=x]> buf)
              else Throws element_exception buf
         else Undefined.

(** ** The range algorithms of <algorithm>, iterators being slot offsets *)

(** [std::fill(first, last, value)] *)
Fixpoint fill_loop (first n : nat) (value : T) : St ArrayPtr () :=
  match n with
  | 0 => st_ret ()
  | S n' => store_copy first value >> fill_loop (S first) n' value
  end.

Definition std_fill (first last : nat) (value : T) : St ArrayPtr () :=
  if last <? first then undefined else fill_loop first (last - first) value.

(** [std::copy(first, last, d_first)] from the buffer [src] into the buffer
    of the state, which is another allocation. *)
Fixpoint copy_loop (src : ArrayPtr) (first d_first n : nat) : St ArrayPtr () :=
  match n with
  | 0 => st_ret ()
  | S n' =>
      match src !! first with
      | Some x => store_copy d_first x >> copy_loop src (S first) (S d_first) n'
      | None => undefined
      end
  end.

Definition std_copy (src : ArrayPtr) (first last d_first : nat) : St ArrayPtr () :=
  if last <? first then undefined else copy_loop src first d_first (last - first).

(** [std::copy_backward(first, last, d_last)] inside one buffer: the last
    element is copied first. *)
Fixpoint copy_backward_loop (last d_last n : nat) {struct n} : St ArrayPtr () :=
  match n with
  | 0 => st_ret ()
  | S n' =>
      match last, d_last with
      | S last', S d_last' =>
          let* x := load last' in
          store_copy d_last' x >>
          copy_backward_loop last' d_last' n'
      | _, _ => undefined
      end
  end.

Definition std_copy_backward (first last d_last : nat) : St ArrayPtr () :=
  if last <? first then undefined else copy_backward_loop last d_last (last - first).

(** [std::move(first, last, d_first)] from the buffer [src] into the buffer
    of the state; the result is [src] with its elements moved from. *)
Fixpoint move_loop (src : ArrayPtr) (first d_first n : nat) : St ArrayPtr ArrayPtr :=
  match n with
  | 0 => st_ret src
  | S n' =>
      match src !! first with
      | Some x =>
          store d_first x >>
          move_loop (<[first:=moved_from x]> src) (S first) (S d_first) n'
      | None => undefined
      end
  end.

Definition std_move (src : ArrayPtr) (first last d_first : nat) : St ArrayPtr ArrayPtr :=
  if last <? first then undefined else move_loop src first d_first (last - first).

(** [std::move(first, last, d_first)] inside one buffer, front to back. *)
Fixpoint move_within_loop (first d_first n : nat) : St ArrayPtr () :=
  match n with
  | 0 => st_ret ()
  | S n' =>
      let* x := load first in
      store d_first x >>
      store first (moved_from x) >>
      move_within_loop (S first) (S d_first) n'
  end.

Definition std_move_within (first last d_first : nat) : St ArrayPtr () :=
  if last <? first then undefined else move_within_loop first d_first (last - first).

(** [std::move_backward(first, last, d_last)] inside one buffer. *)
Fixpoint move_backward_loop (last d_last n : nat) {struct n} : St ArrayPtr () :=
  match n with
  | 0 => st_ret ()
  | S n' =>
      match last, d_last with
      | S last', S d_last' =>
          let* x := load last' in
          store d_last' x >>
          store last' (moved_from x) >>
          move_backward_loop last' d_last' n'
      | _, _ => undefined
      end
  end.

Definition std_move_backward (first last d_last : nat) : St ArrayPtr () :=
  if last <? first then undefined else move_backward_loop last d_last (last - first).

(** A computation on a buffer that leaves it with the slots it had. *)
Definition keeps_length {A} (m : St ArrayPtr A) : Prop :=
  ∀ buf, triple m buf (λ _ buf', length buf' = length buf)
                      (λ buf', length buf' = length buf).

(** A computation that, run on the buffer [buf], stays inside it: it
    returns or throws, and leaves the buffer with the slots it had. *)
Definition stays_inside {A} (m : St ArrayPtr A) (buf : ArrayPtr) : Prop :=
  defined_triple m buf (λ _ buf', length buf' = length buf)
                       (λ buf', length buf' = length buf).

(** ** The class *)

Record SimpleVector : Type := {
  items_ : ArrayPtr;
  size_ : N;
  capacity_ : N
}.

(** Member functions run on [*this]. *)
Definition M (A : Type) : Type := St SimpleVector A.

Definition set_items (b : ArrayPtr) : M () :=
  λ this, Returns () {| items_ := b; size_ := size_ this; capacity_ := capacity_ this |}.
Definition set_size (n : N) : M () :=
  λ this, Returns () {| items_ := items_ this; size_ := n; capacity_ := capacity_ this |}.
Definition set_capacity (n : N) : M () :=
  λ this, Returns () {| items_ := items_ this; size_ := size_ this; capacity_ := n |}.

(** A computation on the buffer [items_] of [*this]: what it wrote before
    throwing stays written. *)
Definition on_items {A} (m : St ArrayPtr A) : M A :=
  λ this, match m (items_ this) with
          | Returns a buf => Returns a {| items_ := buf; size_ := size_ this; capacity_ := capacity_ this |}
          | Throws e buf => Throws e {| items_ := buf; size_ := size_ this; capacity_ := capacity_ this |}
          | Undefined => Undefined
          end.

(** A computation on a buffer owned by a local variable: when it throws,
    the local is destroyed during unwinding. *)
Definition on_local {X A} (m : St ArrayPtr A) (buf : ArrayPtr) : St X (A * ArrayPtr) :=
  λ s, match m buf with
       | Returns a buf' => Returns (a, buf') s
       | Throws e _ => Throws e s
       | Undefined => Undefined
       end.

(** [items_.swap(other)]: the result is what [other] holds afterwards. *)
Definition swap_items (other : ArrayPtr) : M ArrayPtr :=
  let* this := get in
  set_items other >>
  st_ret (items_ this).

(** *** Constructors *)

(** [SimpleVector() noexcept = default] *)
Definition SimpleVector_default : SimpleVector :=
  {| items_ := []; size_ := 0; capacity_ := 0 |}.

(** [SimpleVector(size_t size, const Type& value)] *)
Definition SimpleVector_fill {X} (size : N) (value : T) : St X SimpleVector :=
  let* items := ArrayPtr_new size in
  let* (_, items) := on_local (std_fill 0 (N.to_nat size) value) items in
  st_ret {| items_ := items; size_ := size; capacity_ := size |}.

(** [explicit SimpleVector(size_t size)] *)
Definition SimpleVector_sized {X} (size : N) : St X SimpleVector :=
  SimpleVector_fill size value_init.

(** [SimpleVector(std::initializer_list<Type> init)] *)
Definition SimpleVector_init {X} (init : list T) : St X SimpleVector :=
  let n := N.of_nat (length init) in
  let* items := ArrayPtr_new n in
  let* (_, items) := on_local (std_copy init 0 (length init) 0) items in
  st_ret {| items_ := items; size_ := n; capacity_ := n |}.

(** [SimpleVector(ReserveProxyObj reserved)] *)
Definition SimpleVector_reserved {X} (reserved : N) : St X SimpleVector :=
  let* items := ArrayPtr_new reserved in
  st_ret {| items_ := items; size_ := 0; capacity_ := reserved |}.

(** [SimpleVector(const SimpleVector& other)] *)
Definition SimpleVector_copy {X} (other : SimpleVector) : St X SimpleVector :=
  let* items := ArrayPtr_new (size_ other) in
  let* (_, items) :=
    on_local (std_copy (items_ other) 0 (N.to_nat (size_ other)) 0) items in
  st_ret {| items_ := items; size_ := size_ other; capacity_ := size_ other |}.

(** [SimpleVector(SimpleVector&& other)]: the new object and what is left
    of [other]. *)
Definition SimpleVector_move (other : SimpleVector) : SimpleVector * SimpleVector :=
  ({| items_ := items_ other; size_ := size_ other; capacity_ := capacity_ other |},
   {| items_ := []; size_ := 0; capacity_ := 0 |}).

(** *** Observers *)

Definition GetSize (this : SimpleVector) : N := size_ this.
Definition GetCapacity (this : SimpleVector) : N := capacity_ this.
Definition IsEmpty (this : SimpleVector) : bool := (size_ this =? 0)%N.

(** The range [begin(), end()) read in order. *)
Definition elements (this : SimpleVector) : list T :=
  take (N.to_nat (size_ this)) (items_ this).

(** The old buffer once its live elements have been moved out. *)
Definition moved_out (this : SimpleVector) : list T :=
  (moved_from <$> elements this) ++ drop (N.to_nat (size_ this)) (items_ this).

(** [operator[]] *)
Definition subscript (index : N) : M T :=
  let* this := get in
  assert (index <? size_ this)%N >>
  on_items (load (N.to_nat index)).

Definition At (index : N) : M T :=
  let* this := get in
  if (size_ this <=? index)%N then throw out_of_range
  else on_items (load (N.to_nat index)).

(** *** Capacity *)

Definition Clear : M () := set_size 0.

Definition ReallocateCopy (new_capacity : N) : M ArrayPtr :=
  let* new_items := ArrayPtr_new new_capacity in
  let* this := get in
  let copy_size := N.min new_capacity (size_ this) in
  let* (old_items, new_items) :=
    on_local (std_move (items_ this) 0 (N.to_nat copy_size) 0) new_items in
  set_items old_items >>
  st_ret new_items.

Definition Reserve (new_capacity : N) : M () :=
  let* this := get in
  if (capacity_ this <? new_capacity)%N then
    let* new_items := ReallocateCopy new_capacity in
    let* _ := swap_items new_items in
    set_capacity new_capacity
  else st_ret ().

Definition Resize (new_size : N) : M () :=
  let* this := get in
  (if (capacity_ this <? new_size)%N then
     let new_capacity := N.max (wrap (capacity_ this * 2)) new_size in
     let* new_items := ReallocateCopy new_capacity in
     let* (_, new_items) :=
       on_local (std_fill (N.to_nat (size_ this)) (N.to_nat new_size) value_init)
                new_items in
     let* _ := swap_items new_items in
     set_capacity new_capacity
   else if (size_ this <? new_size)%N then
     on_items (std_fill (N.to_nat (size_ this)) (N.to_nat new_size) value_init)
   else st_ret ()) >>
  set_size new_size.

(** *** Modifiers *)

(** [void PushBack(const Type& item)]; [capacity_] is assigned before the
    reallocation, as in the source. *)
Definition PushBack (item : T) : M () :=
  let* this := get in
  let new_size := wrap (size_ this + 1) in
  (if (capacity_ this <? new_size)%N then
     set_capacity (N.max (wrap (capacity_ this * 2)) new_size) >>
     let* this' := get in
     let* new_items := ReallocateCopy (capacity_ this') in
     let* (_, new_items) :=
       on_local (store_copy (N.to_nat (size_ this)) item) new_items in
     let* _ := swap_items new_items in
     st_ret ()
   else
     on_items (store_copy (N.to_nat (size_ this)) item)) >>
  set_size new_size.

(** [Iterator Insert(ConstIterator pos, const Type& value)]; an iterator is
    its distance from [begin()], so the [assert] is [pos <= size_].
    [capacity_] is assigned before the allocation, as in the source. *)
Definition Insert (pos : N) (value : T) : M N :=
  let* this := get in
  assert (pos <=? size_ this)%N >>
  let new_pos := pos in
  let new_size := wrap (size_ this + 1) in
  (if (new_size <=? capacity_ this)%N then
     on_items (std_copy_backward (N.to_nat pos) (N.to_nat (size_ this))
                                 (N.to_nat (size_ this) + 1) >>
               store_copy (N.to_nat new_pos) value)
   else
     set_capacity (N.max (wrap (capacity_ this * 2)) new_size) >>
     let* this' := get in
     let* items := ArrayPtr_new (capacity_ this') in
     let* (_, items) :=
       on_local (std_copy (items_ this) 0 (N.to_nat pos) 0 >>
                 store_copy (N.to_nat new_pos) value >>
                 std_copy (items_ this) (N.to_nat pos) (N.to_nat (size_ this))
                          (N.to_nat new_pos + 1))
                items in
     let* _ := swap_items items in
     st_ret ()) >>
  set_size new_size >>
  st_ret new_pos.

(** [size_--] and [--size_] on a [size_t] *)
Definition decrement (x : N) : N :=
  if (x =? 0)%N then SIZE_MAX else (x - 1)%N.

Definition PopBack : M () :=
  let* this := get in
  assert (negb (IsEmpty this)) >>
  set_size (decrement (size_ this)).

Definition Erase (pos : N) : M N :=
  let* this := get in
  assert (pos <? size_ this)%N >>
  on_items (std_move_within (N.to_nat pos + 1) (N.to_nat (size_ this)) (N.to_nat pos)) >>
  set_size (decrement (size_ this)) >>
  st_ret pos.

(** [void swap(SimpleVector& other) noexcept], for another object; the
    result is what [other] holds afterwards. *)
Definition swap (other : SimpleVector) : M SimpleVector :=
  let* this := get in
  put other >>
  st_ret this.

(** [void PushBack(Type&& item)] *)
Definition PushBack_rv (item : T) : M () :=
  let* this := get in
  let new_size := wrap (size_ this + 1) in
  (if (capacity_ this <? new_size)%N then
     set_capacity (N.max (wrap (capacity_ this * 2)) new_size) >>
     let* this' := get in
     let* new_items := ReallocateCopy (capacity_ this') in
     let* (_, new_items) :=
       on_local (store (N.to_nat (size_ this)) item) new_items in
     let* _ := swap_items new_items in
     st_ret ()
   else
     on_items (store (N.to_nat (size_ this)) item)) >>
  set_size new_size.

(** [Iterator Insert(ConstIterator pos, Type&& value)] *)
Definition Insert_rv (pos : N) (value : T) : M N :=
  let* this := get in
  assert (pos <=? size_ this)%N >>
  let new_pos := pos in
  let new_size := wrap (size_ this + 1) in
  (if (new_size <=? capacity_ this)%N then
     on_items (std_move_backward (N.to_nat new_pos) (N.to_nat (size_ this))
                                 (N.to_nat (size_ this) + 1) >>
               store (N.to_nat new_pos) value)
   else
     set_capacity (N.max (wrap (capacity_ this * 2)) new_size) >>
     let* this' := get in
     let* items := ArrayPtr_new (capacity_ this') in
     let* (old_items, items) :=
       on_local (let* old_items := std_move (items_ this) 0 (N.to_nat new_pos) 0 in
                 store (N.to_nat new_pos) value >>
                 std_move old_items (N.to_nat new_pos) (N.to_nat (size_ this))
                          (N.to_nat new_pos + 1))
                items in
     set_items old_items >>
     let* _ := swap_items items in
     st_ret ()) >>
  set_size new_size >>
  st_ret new_pos.

(** *** Copy assignment *)

(** What [operator=(const SimpleVector& rhs)] does once [&rhs != this]. *)
Definition assign_other (rhs : SimpleVector) : M () :=
  (if IsEmpty rhs then Clear else st_ret ()) >>
  let* rhs_copy := SimpleVector_copy rhs in
  let* _ := swap rhs_copy in
  st_ret ().

(** Objects live at addresses; a reference is an address. *)
Definition at_object {A} (this : nat) (m : M A) : St (gmap nat SimpleVector) A :=
  λ σ, match σ !! this with
       | Some v =>
           match m v with
           | Returns a v' => Returns a (<[this:=v']> σ)
           | Throws e v' => Throws e (<[this:=v']> σ)
           | Undefined => Undefined
           end
       | None => Undefined
       end.

(** [SimpleVector& operator=(const SimpleVector& rhs)] *)
Definition copy_assign (this rhs : nat) : St (gmap nat SimpleVector) () :=
  if negb (rhs =? this) then
    λ σ, match σ !! rhs with
         | Some r => at_object this (assign_other r) σ
         | None => Undefined
         end
  else st_ret ().

(** *** Comparison operators *)

(** [std::lexicographical_compare] on two ranges *)
Fixpoint lexicographical_compare (r1 r2 : list T) : bool :=
  match r1, r2 with
  | x :: r1', y :: r2' =>
      if elem_lt x y then true
      else if elem_lt y x then false
      else lexicographical_compare r1' r2'
  | [], _ :: _ => true
  | _, [] => false
  end.

Definition operator_lt (lhs rhs : SimpleVector) : bool :=
  lexicographical_compare (elements lhs) (elements rhs).

Definition operator_le (lhs rhs : SimpleVector) : bool :=
  negb (operator_lt rhs lhs).

Definition operator_gt (lhs rhs : SimpleVector) : bool :=
  operator_lt rhs lhs.

Definition operator_ge (lhs rhs : SimpleVector) : bool :=
  negb (operator_gt lhs rhs).

(** [std::equal(first1, last1, first2)] on ranges of one length *)
Fixpoint std_equal (r1 r2 : list T) : bool :=
  match r1, r2 with
  | x :: r1', y :: r2' => elem_eq x y && std_equal r1' r2'
  | [], _ => true
  | _ :: _, [] => false
  end.

(** [operator==] on two objects given by address *)
Definition operator_eq (σ : gmap nat SimpleVector) (lhs rhs : nat) : option bool :=
  if lhs =? rhs then Some true
  else match σ !! lhs, σ !! rhs with
       | Some l, Some r =>
           Some ((GetSize l =? GetSize r)%N && std_equal (elements l) (elements r))
       | _, _ => None
       end.

(** [operator!=] on two objects given by address *)
Definition operator_ne (σ : gmap nat SimpleVector) (lhs rhs : nat) : option bool :=
  negb <$> operator_eq σ lhs rhs.

(** The lexicographic order the specification asks for, over the order of
    the elements: the first position at which one element is less than the
    other decides, and a proper prefix is less than the whole. *)
Inductive lexicographic_lt : list T → list T → Prop :=
  | lex_prefix y r2 : lexicographic_lt [] (y :: r2)
  | lex_less x y r1 r2 :
      elem_lt x y = true → lexicographic_lt (x :: r1) (y :: r2)
  | lex_next x y r1 r2 :
      elem_lt x y = false → elem_lt y x = false →
      lexicographic_lt r1 r2 → lexicographic_lt (x :: r1) (y :: r2).

(** *** The mutating calls, as data *)

Inductive mutation : Type :=
  | call_Reserve (new_capacity : N)
  | call_Resize (new_size : N)
  | call_Clear
  | call_PushBack (item : T)
  | call_PushBack_rv (item : T)
  | call_Insert (pos : N) (value : T)
  | call_Insert_rv (pos : N) (value : T)
  | call_PopBack
  | call_Erase (pos : N)
  | call_assign (rhs : SimpleVector)
  | call_swap (other : SimpleVector).

Definition perform (c : mutation) : M () :=
  match c with
  | call_Reserve n => Reserve n
  | call_Resize n => Resize n
  | call_Clear => Clear
  | call_PushBack x => PushBack x
  | call_PushBack_rv x => PushBack_rv x
  | call_Insert pos x => let* _ := Insert pos x in st_ret ()
  | call_Insert_rv pos x => let* _ := Insert_rv pos x in st_ret ()
  | call_PopBack => PopBack
  | call_Erase pos => let* _ := Erase pos in st_ret ()
  | call_assign rhs => assign_other rhs
  | call_swap other => let* _ := swap other in st_ret ()
  end.

Fixpoint perform_all (cs : list mutation) : M () :=
  match cs with
  | [] => st_ret ()
  | c :: cs' => perform c >> perform_all cs'
  end.

(** Assignment and swap replace the buffer by another object's. *)
Definition keeps_own_buffer (c : mutation) : bool :=
  match c with
  | call_assign _ | call_swap _ => false
  | _ => true
  end.

(** The capacity PushBack and Insert leave, in terms of the object at
    entry: [capacity_] is kept when one more element fits, and is
    [std::max(capacity_ * 2, new_size)] otherwise. *)
Definition capacity_after_adding (this : SimpleVector) : N :=
  if (wrap (size_ this + 1) <=? capacity_ this)%N then capacity_ this
  else N.max (wrap (capacity_ this * 2)) (wrap (size_ this + 1)).

(** *** Capacity along a call *)

(** However the call [m] on [s] ends, the capacity it leaves is not below
    the capacity of [s]. *)
Definition keeps_capacity {A} (m : M A) (s : SimpleVector) : Prop :=
  ∀ s', final_state (m s) = Some s' → (capacity_ s ≤ capacity_ s')%N.

(** However the call [m] on [s] ends, it leaves the capacity of [s]. *)
Definition same_capacity {A} (m : M A) (s : SimpleVector) : Prop :=
  ∀ s', final_state (m s) = Some s' → capacity_ s' = capacity_ s.

(** *** Consistency of an object *)

(** [size_], [capacity_] and the allocation agree. *)
Definition consistent (v : SimpleVector) : bool :=
  (size_ v <=? capacity_ v)%N
  && (N.of_nat (length (items_ v)) =? capacity_ v)%N
  && (capacity_ v <=? max_slots)%N.

(** [s'] has the size, the capacity and the number of slots of [s]. *)
Definition same_shape (s s' : SimpleVector) : Prop :=
  size_ s' = size_ s ∧ capacity_ s' = capacity_ s
  ∧ length (items_ s') = length (items_ s).

(** [s] would be consistent with size [n]. *)
Definition fits (n : N) (s : SimpleVector) : Prop :=
  (n ≤ capacity_ s)%N ∧ length (items_ s) = N.to_nat (capacity_ s)
  ∧ (capacity_ s ≤ max_slots)%N.

(** The calls that write [capacity_] only once the new buffer is in place. *)
Definition writes_capacity_last (c : mutation) : bool :=
  match c with
  | call_PushBack _ | call_PushBack_rv _ | call_Insert _ _ | call_Insert_rv _ _ => false
  | _ => true
  end.

(** The object a call takes by reference, if any, is consistent. *)
Definition consistent_argument (c : mutation) : bool :=
  match c with
  | call_swap other => consistent other
  | _ => true
  end.

(** The [assert] at the head of a call. *)
Definition precondition (c : mutation) (this : SimpleVector) : bool :=
  match c with
  | call_Insert pos _ | call_Insert_rv pos _ => (pos <=? size_ this)%N
  | call_Erase pos => (pos <? size_ this)%N
  | call_PopBack => negb (IsEmpty this)
  | _ => true
  end.

(** The object copy assignment reads its elements from is consistent. *)
Definition consistent_source (c : mutation) : bool :=
  match c with
  | call_assign rhs => consistent rhs
  | _ => true
  end.

End Vector.

Arguments SimpleVector T : clear implicits.
Arguments mutation T : clear implicits.

(** ** [int] elements *)

#[export] Instance int_element : Element Z := {|
  value_init := 0%Z;
  copy_ok := λ _, true;
  moved_from := λ x, x;
  elem_lt := Z.ltb;
  elem_eq := Z.eqb
|}.

(** A heap that satisfies every request it may, and one that satisfies none. *)
Definition plentiful : Heap Z :=
  {| heap_grants := λ _, true; indeterminate := λ _, (-1)%Z |}.
Definition exhausted : Heap Z :=
  {| heap_grants := λ _, false; indeterminate := λ _, (-1)%Z |}.

(** The object built by [SimpleVector<int>{1, 2, 3}]. *)
Definition one_two_three : SimpleVector Z :=
  {| items_ := [1; 2; 3]%Z; size_ := 3; capacity_ := 3 |}.

(** * Properties *)

(** ** Stepping through a computation *)

Section Stepping.
Context {X : Type}.

Lemma bind_returns {A B} (m : St X A) (k : A → St X B) s a s' :
  m s = Returns a s' → (let* x := m in k x) s = k a s'.
Proof. intros E. unfold st_bind. by rewrite E. Qed.

Lemma bind_throws {A B} (m : St X A) (k : A → St X B) s e s' :
  m s = Throws e s' → (let* x := m in k x) s = Throws e s'.
Proof. intros E. unfold st_bind. by rewrite E. Qed.

Lemma bind_undefined {A B} (m : St X A) (k : A → St X B) s :
  m s = Undefined → (let* x := m in k x) s = Undefined.
Proof. intros E. unfold st_bind. by rewrite E. Qed.

Lemma bind_get {B} (k : X → St X B) s : (let* x := get in k x) s = k s s.
Proof. reflexivity. Qed.

Lemma bind_ret {A B} (a : A) (k : A → St X B) s :
  (let* x := st_ret a in k x) s = k a s.
Proof. reflexivity. Qed.

Lemma bind_assert_true {B} (k : St X B) (b : bool) s :
  b = true → (assert b >> k) s = k s.
Proof. by intros ->. Qed.

Lemma bind_assert_false {B} (k : St X B) (b : bool) s :
  b = false → (assert b >> k) s = Undefined.
Proof. by intros ->. Qed.

End Stepping.

(** ** Closed forms of the range algorithms *)

Section Algorithms.
Context {T : Type} `{Element T}.
Implicit Types (buf src dst : list T) (x value : T).

Lemma store_returns i x buf :
  i < length buf → store i x buf = Returns () (<[i:=x]> buf).
Proof. intros Hi. unfold store. by apply Nat.ltb_lt in Hi as ->. Qed.

Lemma store_copy_returns i x buf :
  i < length buf → copy_ok x = true →
  store_copy i x buf = Returns () (<[i:=x]> buf).
Proof. intros Hi Hx. unfold store_copy. apply Nat.ltb_lt in Hi as ->. by rewrite Hx. Qed.

Lemma load_returns i x buf : buf !! i = Some x → load i buf = Returns x buf.
Proof. intros E. unfold load. by rewrite E. Qed.

(** Writing slot [d] and then looking at the first [d + 1] slots. *)
Lemma take_S_insert d x buf :
  d < length buf → take (S d) (<[d:=x]> buf) = take d buf ++ [x].
Proof.
  intros Hd. rewrite (take_S_r _ _ x) by by apply list_lookup_insert_eq.
  by rewrite take_insert_ge.
Qed.

Lemma move_loop_returns n : ∀ src first d_first dst,
  first + n ≤ length src → d_first + n ≤ length dst →
  move_loop src first d_first n dst =
    Returns (take first src ++ (moved_from <$> take n (drop first src))
               ++ drop (first + n) src)
            (take d_first dst ++ take n (drop first src) ++ drop (d_first + n) dst).
Proof.
  induction n as [|n IH]; intros src first d dst Hs Hd; simpl.
  - rewrite !Nat.add_0_r. unfold st_ret. by rewrite !take_drop.
  - assert (first < length src) as Hlt by lia.
    destruct (lookup_lt_is_Some_2 _ _ Hlt) as [x Hx].
    rewrite Hx. erewrite bind_returns by (apply store_returns; lia).
    rewrite IH by (rewrite ?length_insert; lia).
    rewrite !take_S_insert by lia.
    rewrite (drop_S _ _ _ Hx), !Nat.add_succ_r. simpl.
    rewrite !drop_insert_lt by lia.
    by rewrite <- !app_assoc.
Qed.

Lemma fill_loop_returns n : ∀ first value buf,
  copy_ok value = true → first + n ≤ length buf →
  fill_loop first n value buf =
    Returns () (take first buf ++ replicate n value ++ drop (first + n) buf).
Proof.
  induction n as [|n IH]; intros first value buf Hv Hb; simpl.
  - rewrite Nat.add_0_r. unfold st_ret. by rewrite take_drop.
  - erewrite bind_returns by (apply store_copy_returns; [lia | done]).
    rewrite IH by (rewrite ?length_insert; (done || lia)).
    rewrite take_S_insert by lia.
    rewrite Nat.add_succ_r. simpl.
    rewrite drop_insert_lt by lia.
    by rewrite <- app_assoc.
Qed.

Lemma std_fill_returns first last value buf :
  copy_ok value = true → first ≤ last → last ≤ length buf →
  std_fill first last value buf =
    Returns () (take first buf ++ replicate (last - first) value ++ drop last buf).
Proof.
  intros Hv Hfl Hl. unfold std_fill.
  destruct (Nat.ltb_spec last first); [lia|].
  rewrite fill_loop_returns by (done || lia).
  by replace (first + (last - first)) with last by lia.
Qed.

Lemma copy_loop_returns n : ∀ src first d_first dst,
  first + n ≤ length src → d_first + n ≤ length dst →
  forallb copy_ok (take n (drop first src)) = true →
  copy_loop src first d_first n dst =
    Returns () (take d_first dst ++ take n (drop first src) ++ drop (d_first + n) dst).
Proof.
  induction n as [|n IH]; intros src first d dst Hs Hd Hc; simpl.
  - rewrite Nat.add_0_r. unfold st_ret. by rewrite take_drop.
  - assert (first < length src) as Hlt by lia.
    destruct (lookup_lt_is_Some_2 _ _ Hlt) as [x Hx].
    rewrite (drop_S _ _ _ Hx) in Hc |- *. simpl in Hc |- *.
    apply andb_prop in Hc as [Hcx Hc].
    rewrite Hx. erewrite bind_returns by (apply store_copy_returns; [lia | done]).
    rewrite IH by (rewrite ?length_insert; (done || lia)).
    rewrite take_S_insert by lia.
    rewrite Nat.add_succ_r. simpl.
    rewrite drop_insert_lt by lia.
    by rewrite <- app_assoc.
Qed.

Lemma std_copy_returns src first last d_first dst :
  first ≤ last → last ≤ length src → d_first + (last - first) ≤ length dst →
  forallb copy_ok (take (last - first) (drop first src)) = true →
  std_copy src first last d_first dst =
    Returns () (take d_first dst ++ take (last - first) (drop first src)
                  ++ drop (d_first + (last - first)) dst).
Proof.
  intros Hfl Hl Hd Hc. unfold std_copy.
  destruct (Nat.ltb_spec last first); [lia|].
  apply copy_loop_returns; (done || lia).
Qed.

Lemma std_move_returns src first last d_first dst :
  first ≤ last → last ≤ length src → d_first + (last - first) ≤ length dst →
  std_move src first last d_first dst =
    Returns (take first src ++ (moved_from <$> take (last - first) (drop first src))
               ++ drop last src)
            (take d_first dst ++ take (last - first) (drop first src)
               ++ drop (d_first + (last - first)) dst).
Proof.
  intros Hfl Hl Hd. unfold std_move.
  destruct (Nat.ltb_spec last first); [lia|].
  rewrite move_loop_returns by lia.
  by replace (first + (last - first)) with last by lia.
Qed.

(** Shifting [n] elements that end at [last] one slot to the right: the
    far end goes first, so no element is overwritten before it is read. *)
Lemma copy_backward_loop_returns n : ∀ last buf,
  n ≤ last → S last ≤ length buf →
  forallb copy_ok (take n (drop (last - n) buf)) = true →
  copy_backward_loop last (S last) n buf =
    Returns () (take (S last - n) buf ++ take n (drop (last - n) buf)
                  ++ drop (S last) buf).
Proof.
  induction n as [|n IH]; intros last buf Hn Hb Hc; simpl.
  - rewrite ?Nat.sub_0_r. unfold st_ret. by rewrite take_drop.
  - destruct last as [|l]; [lia|].
    assert (l < length buf) as Hlt by lia.
    destruct (lookup_lt_is_Some_2 _ _ Hlt) as [x Hx].
    assert (take (S n) (drop (S l - S n) buf) = take n (drop (l - n) buf) ++ [x]) as Hsplit.
    { simpl. rewrite (take_S_r _ _ x); [done|].
      rewrite lookup_drop. by replace (l - n + n) with l by lia. }
    rewrite Hsplit in Hc |- *. rewrite forallb_app in Hc. simpl in Hc.
    apply andb_prop in Hc as [Hc Hcx]. rewrite andb_true_r in Hcx.
    erewrite bind_returns by by apply load_returns.
    erewrite bind_returns by (apply store_copy_returns; [lia | done]).
    rewrite IH; rewrite ?length_insert; try lia.
    + rewrite take_insert_ge by lia.
      rewrite drop_insert_ge, take_insert_ge by lia.
      rewrite (insert_take_drop buf (S l)) by lia.
      rewrite drop_app_length' by (rewrite length_take; lia).
      replace (S (S l) - S n) with (S l - n) by lia.
      by rewrite <- app_assoc.
    + rewrite drop_insert_ge, take_insert_ge by lia. done.
Qed.

Lemma std_copy_backward_returns first last buf :
  first ≤ last → S last ≤ length buf →
  forallb copy_ok (take (last - first) (drop first buf)) = true →
  std_copy_backward first last (S last) buf =
    Returns () (take (S first) buf ++ take (last - first) (drop first buf)
                  ++ drop (S last) buf).
Proof.
  intros Hfl Hb Hc. unfold std_copy_backward.
  destruct (Nat.ltb_spec last first); [lia|].
  replace first with (last - (last - first)) in Hc at 2 by lia.
  rewrite copy_backward_loop_returns by (done || lia).
  replace (S last - (last - first)) with (S first) by lia.
  by replace (last - (last - first)) with first by lia.
Qed.

(** Shifting [n] elements that start at [S d] one slot to the left, front
    first; the slot after the last one written keeps a moved-from value. *)
Lemma move_within_loop_returns n : ∀ d buf,
  S d + n ≤ length buf →
  ∃ buf', move_within_loop (S d) d n buf = Returns () buf'
          ∧ length buf' = length buf
          ∧ take (d + n) buf' = take d buf ++ take n (drop (S d) buf)
          ∧ drop (S d + n) buf' = drop (S d + n) buf.
Proof.
  induction n as [|n IH]; intros d buf Hb; simpl.
  - exists buf. rewrite !Nat.add_0_r, app_nil_r. done.
  - assert (S d < length buf) as Hlt by lia.
    destruct (lookup_lt_is_Some_2 _ _ Hlt) as [x Hx].
    erewrite bind_returns by by apply load_returns.
    erewrite bind_returns by (apply store_returns; lia).
    erewrite bind_returns by (apply store_returns; rewrite length_insert; lia).
    destruct (IH (S d) (<[S d:=moved_from x]> (<[d:=x]> buf))) as (buf' & -> & Hlen & Htake & Hdrop).
    { rewrite !length_insert. lia. }
    exists buf'. rewrite !length_insert in Hlen.
    rewrite !Nat.add_succ_r. simpl in Htake. split_and!; [done | done | |].
    + rewrite Htake. rewrite !drop_insert_lt by lia.
      rewrite take_insert_ge by lia. rewrite take_S_insert by lia.
      rewrite (drop_S _ _ _ Hx). simpl. by rewrite <- app_assoc.
    + simpl in Hdrop. rewrite Hdrop. by rewrite !drop_insert_lt by lia.
Qed.

Lemma std_move_within_returns d last buf :
  S d ≤ last → last ≤ length buf →
  ∃ buf', std_move_within (S d) last d buf = Returns () buf'
          ∧ length buf' = length buf
          ∧ take (last - 1) buf' = take d buf ++ take (last - S d) (drop (S d) buf)
          ∧ drop last buf' = drop last buf.
Proof.
  intros Hd Hl. unfold std_move_within.
  destruct (Nat.ltb_spec last (S d)); [lia|].
  destruct (move_within_loop_returns (last - S d) d buf) as (buf' & -> & ? & Ht & Hdr); [lia|].
  exists buf'. replace (d + (last - S d)) with (last - 1) in Ht by lia.
  by replace (S d + (last - S d)) with last in Hdr by lia.
Qed.

(** The same shift to the right by moves: the first source slot is left
    moved from, every other source slot is written again by the next step. *)
Lemma move_backward_loop_returns n : ∀ last buf,
  n ≤ last → S last ≤ length buf →
  ∃ buf', move_backward_loop last (S last) n buf = Returns () buf'
          ∧ length buf' = length buf
          ∧ take (last - n) buf' = take (last - n) buf
          ∧ drop (S (last - n)) buf' = take n (drop (last - n) buf) ++ drop (S last) buf.
Proof.
  induction n as [|n IH]; intros last buf Hn Hb; simpl.
  - exists buf. by rewrite Nat.sub_0_r.
  - destruct last as [|l]; [lia|].
    assert (l < length buf) as Hlt by lia.
    destruct (lookup_lt_is_Some_2 _ _ Hlt) as [x Hx].
    erewrite bind_returns by by apply load_returns.
    erewrite bind_returns by (apply store_returns; lia).
    erewrite bind_returns by (apply store_returns; rewrite length_insert; lia).
    destruct (IH l (<[l:=moved_from x]> (<[S l:=x]> buf)))
      as (buf' & -> & Hlen & Htake & Hdrop); [lia | rewrite !length_insert; lia |].
    exists buf'. rewrite !length_insert in Hlen. rewrite !Nat.sub_succ.
    split_and!; [done | done | |].
    + rewrite Htake. by rewrite !take_insert_ge by lia.
    + rewrite Hdrop.
      rewrite drop_insert_ge, take_insert_ge by lia.
      rewrite drop_insert_ge, take_insert_ge by lia.
      rewrite drop_insert_lt by lia.
      rewrite (insert_take_drop buf (S l)) by lia.
      rewrite drop_app_length' by (rewrite length_take; lia).
      rewrite (take_S_r _ _ x), <- app_assoc; [done|].
      rewrite lookup_drop. by replace (l - n + n) with l by lia.
Qed.

Lemma std_move_backward_returns first last buf :
  first ≤ last → S last ≤ length buf →
  ∃ buf', std_move_backward first last (S last) buf = Returns () buf'
          ∧ length buf' = length buf
          ∧ take first buf' = take first buf
          ∧ drop (S first) buf' = take (last - first) (drop first buf) ++ drop (S last) buf.
Proof.
  intros Hfl Hb. unfold std_move_backward.
  destruct (Nat.ltb_spec last first); [lia|].
  destruct (move_backward_loop_returns (last - first) last buf)
    as (buf' & -> & Hlen & Htake & Hdrop); [lia | lia |].
  exists buf'. replace (last - (last - first)) with first in * by lia. done.
Qed.

End Algorithms.

(** ** Objects *)

Section Objects.
Context {T : Type} `{Element T} `{Heap T}.
Implicit Types (v : SimpleVector T) (x : T).

Lemma max_slots_eq : max_slots = 9223372036854775807%N.
Proof. reflexivity. Qed.

Lemma wrap_small (x : N) : (x ≤ 2 * max_slots + 1)%N → wrap x = x.
Proof. intros Hx. apply N.mod_small. rewrite max_slots_eq in Hx. lia. Qed.

Lemma consistent_spec v :
  consistent v = true ↔
  (size_ v ≤ capacity_ v)%N ∧ length (items_ v) = N.to_nat (capacity_ v)
  ∧ (capacity_ v ≤ max_slots)%N.
Proof.
  unfold consistent. rewrite !andb_true_iff, !N.leb_le, N.eqb_eq. lia.
Qed.

Lemma length_elements v :
  consistent v = true → length (elements v) = N.to_nat (size_ v).
Proof.
  intros (Hs & Hl & _)%consistent_spec. unfold elements.
  rewrite length_take. lia.
Qed.

Lemma length_fresh_buffer (n : N) : length (fresh_buffer n) = N.to_nat n.
Proof. unfold fresh_buffer. by rewrite length_fmap, length_seq. Qed.

Lemma ArrayPtr_new_returns {X} (n : N) (s : X) :
  can_allocate n = true → ArrayPtr_new n s = Returns (fresh_buffer n) s.
Proof.
  unfold can_allocate, ArrayPtr_new. intros Hn.
  destruct (N.eqb_spec n 0) as [-> | _]; [done|].
  simpl in Hn. by rewrite Hn.
Qed.

Lemma ArrayPtr_new_throws {X} (n : N) (s : X) :
  can_allocate n = false → ArrayPtr_new n s = Throws bad_alloc s.
Proof.
  unfold can_allocate, ArrayPtr_new. intros Hn.
  destruct (N.eqb_spec n 0) as [-> | _]; [done|].
  simpl in Hn. by rewrite Hn.
Qed.

Lemma length_moved_out v : length (moved_out v) = length (items_ v).
Proof.
  unfold moved_out, elements.
  rewrite length_app, length_fmap, length_take, length_drop. lia.
Qed.

Lemma ReallocateCopy_returns v (n : N) :
  N.to_nat (size_ v) ≤ length (items_ v) → can_allocate n = true → (size_ v ≤ n)%N →
  ReallocateCopy n v =
    Returns (elements v ++ drop (N.to_nat (size_ v)) (fresh_buffer n))
            {| items_ := moved_out v; size_ := size_ v; capacity_ := capacity_ v |}.
Proof.
  intros Hl Hn Hsn. unfold ReallocateCopy.
  erewrite bind_returns by by apply ArrayPtr_new_returns.
  rewrite bind_get. rewrite N.min_r by done.
  unfold on_local, st_bind at 1.
  rewrite std_move_returns; rewrite ?length_fresh_buffer; try lia.
  rewrite Nat.sub_0_r, !drop_0, !take_0. simpl. done.
Qed.

Lemma ReallocateCopy_throws v (n : N) :
  can_allocate n = false → ReallocateCopy n v = Throws bad_alloc v.
Proof.
  intros Hn. unfold ReallocateCopy.
  by erewrite bind_throws by by apply ArrayPtr_new_throws.
Qed.

Lemma Reserve_grows v (n : N) :
  consistent v = true → (capacity_ v < n)%N → can_allocate n = true →
  Reserve n v =
    Returns () {| items_ := elements v ++ drop (N.to_nat (size_ v)) (fresh_buffer n);
                  size_ := size_ v; capacity_ := n |}.
Proof.
  intros Hv Hn Ha. pose proof Hv as (Hs & Hl & _)%consistent_spec.
  unfold Reserve. rewrite bind_get.
  apply N.ltb_lt in Hn as Hn'. rewrite Hn'.
  erewrite bind_returns by (apply ReallocateCopy_returns; (done || lia)).
  reflexivity.
Qed.

Lemma Reserve_enough v (n : N) : (n ≤ capacity_ v)%N → Reserve n v = Returns () v.
Proof.
  intros Hn. unfold Reserve. rewrite bind_get.
  by destruct (N.ltb_spec (capacity_ v) n); [lia|].
Qed.

(** Unfolding the plumbing of the monad, leaving the calls in place. *)
Ltac unfold_monad :=
  unfold swap_items, on_local, on_items, set_items, set_size, set_capacity,
    st_bind, st_ret, get, put;
  cbn [items_ size_ capacity_].

Lemma Resize_grows v (n : N) :
  consistent v = true → (capacity_ v < n)%N →
  can_allocate (N.max (capacity_ v * 2) n) = true → copy_ok value_init = true →
  Resize n v =
    Returns () {| items_ := elements v
                            ++ replicate (N.to_nat n - N.to_nat (size_ v)) value_init
                            ++ drop (N.to_nat n)
                                 (fresh_buffer (N.max (capacity_ v * 2) n));
                  size_ := n;
                  capacity_ := N.max (capacity_ v * 2) n |}.
Proof.
  intros Hv Hn Ha Hc. pose proof Hv as (Hs & Hl & Hm)%consistent_spec.
  pose proof (length_elements _ Hv) as Hle.
  unfold Resize. rewrite bind_get.
  apply N.ltb_lt in Hn as Hn'. rewrite Hn'.
  rewrite wrap_small by lia.
  unfold_monad.
  rewrite ReallocateCopy_returns by (done || lia).
  cbn [items_ size_ capacity_].
  rewrite std_fill_returns;
    rewrite ?length_app, ?length_drop, ?length_fresh_buffer; try (done || lia).
  rewrite take_app_length' by done.
  rewrite drop_app_ge, drop_drop by lia.
  rewrite Hle.
  by replace (N.to_nat (size_ v) + (N.to_nat n - N.to_nat (size_ v))) with (N.to_nat n) by lia.
Qed.

Lemma can_allocate_bound (n : N) : can_allocate n = true → (n ≤ max_slots)%N.
Proof.
  unfold can_allocate. intros [->%N.eqb_eq | [Hn%N.leb_le _]%andb_prop]%orb_prop.
  - rewrite max_slots_eq. lia.
  - done.
Qed.

Lemma elements_app v (l k : list T) :
  items_ v = l ++ k → length l = N.to_nat (size_ v) → elements v = l.
Proof. intros E Hl. unfold elements. rewrite E. by apply take_app_length'. Qed.

Lemma elements_capacity v (c : N) :
  elements {| items_ := items_ v; size_ := size_ v; capacity_ := c |} = elements v.
Proof. reflexivity. Qed.

(** [PushBack] when the buffer is full. *)
Lemma PushBack_grows v x :
  consistent v = true → capacity_ v = size_ v →
  can_allocate (N.max (capacity_ v * 2) (size_ v + 1)) = true → copy_ok x = true →
  PushBack x v =
    Returns () {| items_ := elements v
                            ++ x :: drop (S (N.to_nat (size_ v)))
                                      (fresh_buffer (N.max (capacity_ v * 2) (size_ v + 1)));
                  size_ := size_ v + 1;
                  capacity_ := N.max (capacity_ v * 2) (size_ v + 1) |}.
Proof.
  intros Hv Hfull Ha Hc. pose proof Hv as (Hs & Hl & Hm)%consistent_spec.
  pose proof (length_elements _ Hv) as Hle.
  pose proof (can_allocate_bound _ Ha) as Hb.
  unfold PushBack. rewrite bind_get.
  rewrite !wrap_small by lia.
  destruct (N.ltb_spec (capacity_ v) (size_ v + 1)); [|lia].
  unfold_monad.
  rewrite ReallocateCopy_returns; cbn [items_ size_ capacity_]; try lia; [|done].
  rewrite elements_capacity.
  set (g := N.max (capacity_ v * 2) (size_ v + 1)) in *.
  rewrite store_copy_returns;
    rewrite ?length_app, ?length_drop, ?length_fresh_buffer; try (done || lia).
  cbn [items_ size_ capacity_]. do 2 f_equal.
  rewrite <- Hle, insert_app_r_alt, Nat.sub_diag by done.
  f_equal.
  assert (is_Some (fresh_buffer g !! length (elements v))) as [y Hy].
  { apply lookup_lt_is_Some_2. rewrite length_fresh_buffer. lia. }
  by rewrite (drop_S _ _ _ Hy).
Qed.

(** [PushBack] into spare capacity. *)
Lemma PushBack_in_place v x :
  consistent v = true → (size_ v < capacity_ v)%N → copy_ok x = true →
  PushBack x v =
    Returns () {| items_ := <[N.to_nat (size_ v):=x]> (items_ v);
                  size_ := size_ v + 1;
                  capacity_ := capacity_ v |}.
Proof.
  intros Hv Hroom Hc. pose proof Hv as (Hs & Hl & Hm)%consistent_spec.
  unfold PushBack. rewrite bind_get.
  rewrite !wrap_small by lia.
  destruct (N.ltb_spec (capacity_ v) (size_ v + 1)); [lia|].
  unfold_monad.
  by rewrite store_copy_returns by (done || lia).
Qed.

Lemma PopBack_returns v :
  size_ v ≠ 0%N →
  PopBack v = Returns () {| items_ := items_ v; size_ := size_ v - 1;
                            capacity_ := capacity_ v |}.
Proof.
  intros Hs. unfold PopBack, IsEmpty, decrement. rewrite bind_get.
  by destruct (N.eqb_spec (size_ v) 0).
Qed.

(** The overload taking [Type&&] differs only in moving the item. *)
Lemma PushBack_rv_grows v x :
  consistent v = true → capacity_ v = size_ v →
  can_allocate (N.max (capacity_ v * 2) (size_ v + 1)) = true →
  PushBack_rv x v =
    Returns () {| items_ := elements v
                            ++ x :: drop (S (N.to_nat (size_ v)))
                                      (fresh_buffer (N.max (capacity_ v * 2) (size_ v + 1)));
                  size_ := size_ v + 1;
                  capacity_ := N.max (capacity_ v * 2) (size_ v + 1) |}.
Proof.
  intros Hv Hfull Ha. pose proof Hv as (Hs & Hl & Hm)%consistent_spec.
  pose proof (length_elements _ Hv) as Hle.
  pose proof (can_allocate_bound _ Ha) as Hb.
  unfold PushBack_rv. rewrite bind_get.
  rewrite !wrap_small by lia.
  destruct (N.ltb_spec (capacity_ v) (size_ v + 1)); [|lia].
  unfold_monad.
  rewrite ReallocateCopy_returns; cbn [items_ size_ capacity_]; try lia; [|done].
  rewrite elements_capacity.
  set (g := N.max (capacity_ v * 2) (size_ v + 1)) in *.
  rewrite store_returns;
    rewrite ?length_app, ?length_drop, ?length_fresh_buffer; try (done || lia).
  cbn [items_ size_ capacity_]. do 2 f_equal.
  rewrite <- Hle, insert_app_r_alt, Nat.sub_diag by done.
  f_equal.
  assert (is_Some (fresh_buffer g !! length (elements v))) as [y Hy].
  { apply lookup_lt_is_Some_2. rewrite length_fresh_buffer. lia. }
  by rewrite (drop_S _ _ _ Hy).
Qed.

Lemma PushBack_rv_in_place v x :
  consistent v = true → (size_ v < capacity_ v)%N →
  PushBack_rv x v =
    Returns () {| items_ := <[N.to_nat (size_ v):=x]> (items_ v);
                  size_ := size_ v + 1;
                  capacity_ := capacity_ v |}.
Proof.
  intros Hv Hroom. pose proof Hv as (Hs & Hl & Hm)%consistent_spec.
  unfold PushBack_rv. rewrite bind_get.
  rewrite !wrap_small by lia.
  destruct (N.ltb_spec (capacity_ v) (size_ v + 1)); [lia|].
  unfold_monad.
  by rewrite store_returns by lia.
Qed.

(** Either branch of either overload puts the item right after the
    elements. *)
Lemma take_pushed_grown v x (rest : list T) :
  consistent v = true →
  take (S (N.to_nat (size_ v))) (elements v ++ x :: rest) = elements v ++ [x].
Proof.
  intros Hv. pose proof (length_elements _ Hv) as Hle.
  rewrite (app_assoc _ [x] rest : elements v ++ x :: rest = _).
  apply take_app_length'. rewrite length_app. simpl. lia.
Qed.

Lemma take_pushed_in_place v x :
  consistent v = true → (size_ v < capacity_ v)%N →
  take (S (N.to_nat (size_ v))) (<[N.to_nat (size_ v):=x]> (items_ v))
  = elements v ++ [x].
Proof.
  intros (Hs & Hl & Hm)%consistent_spec Hroom. apply take_S_insert. lia.
Qed.

Lemma PushBack_returns v x :
  consistent v = true → copy_ok x = true →
  (capacity_ v = size_ v →
   can_allocate (N.max (capacity_ v * 2) (size_ v + 1)) = true) →
  ∃ items' c,
    PushBack x v = Returns () {| items_ := items'; size_ := size_ v + 1; capacity_ := c |}
    ∧ take (S (N.to_nat (size_ v))) items' = elements v ++ [x].
Proof.
  intros Hv Hc Ha. pose proof Hv as (Hs & Hl & Hm)%consistent_spec.
  destruct (N.eq_dec (capacity_ v) (size_ v)) as [Hfull | Hroom].
  - do 2 eexists. split; [by apply PushBack_grows; auto|].
    by apply take_pushed_grown.
  - do 2 eexists. split; [by apply PushBack_in_place; (done || lia)|].
    apply take_pushed_in_place; (done || lia).
Qed.

Lemma PushBack_rv_returns v x :
  consistent v = true →
  (capacity_ v = size_ v →
   can_allocate (N.max (capacity_ v * 2) (size_ v + 1)) = true) →
  ∃ items' c,
    PushBack_rv x v = Returns () {| items_ := items'; size_ := size_ v + 1; capacity_ := c |}
    ∧ take (S (N.to_nat (size_ v))) items' = elements v ++ [x].
Proof.
  intros Hv Ha. pose proof Hv as (Hs & Hl & Hm)%consistent_spec.
  destruct (N.eq_dec (capacity_ v) (size_ v)) as [Hfull | Hroom].
  - do 2 eexists. split; [by apply PushBack_rv_grows; auto|].
    by apply take_pushed_grown.
  - do 2 eexists. split; [by apply PushBack_rv_in_place; (done || lia)|].
    apply take_pushed_in_place; (done || lia).
Qed.

(** What both overloads of PushBack leave, for the round trip with PopBack. *)
Lemma pushed_then_popped v x items' (c : N) :
  consistent v = true →
  take (S (N.to_nat (size_ v))) items' = elements v ++ [x] →
  let v1 := {| items_ := items'; size_ := size_ v + 1; capacity_ := c |} in
  elements v1 = elements v ++ [x]
  ∧ ∃ v2, PopBack v1 = Returns () v2
          ∧ size_ v2 = size_ v ∧ elements v2 = elements v.
Proof.
  intros Hv Htake v1. pose proof (length_elements _ Hv) as Hle. subst v1.
  split.
  { unfold elements at 1. cbn [items_ size_].
    by replace (N.to_nat (size_ v + 1)) with (S (N.to_nat (size_ v))) by lia. }
  eexists. split; [apply PopBack_returns; cbn [size_]; lia|].
  cbn [size_]. split; [lia|].
  unfold elements at 1. cbn [items_ size_].
  replace (N.to_nat (size_ v + 1 - 1))
    with (N.to_nat (size_ v) `min` S (N.to_nat (size_ v))) by lia.
  rewrite <- take_take, Htake. by rewrite take_app_length'.
Qed.

Lemma eta v :
  {| items_ := items_ v; size_ := size_ v; capacity_ := capacity_ v |} = v.
Proof. by destruct v. Qed.

Lemma At_in_range v (index : N) x :
  (index < size_ v)%N → items_ v !! N.to_nat index = Some x →
  At index v = Returns x v.
Proof.
  intros Hi Hx. unfold At. rewrite bind_get.
  destruct (N.leb_spec (size_ v) index); [lia|].
  unfold on_items. by rewrite (load_returns _ _ _ Hx), eta.
Qed.

Lemma At_beyond v (index : N) :
  (size_ v ≤ index)%N → At index v = Throws out_of_range v.
Proof.
  intros Hi. unfold At. rewrite bind_get.
  by destruct (N.leb_spec (size_ v) index); [|lia].
Qed.

Lemma subscript_in_range v (index : N) x :
  (index < size_ v)%N → items_ v !! N.to_nat index = Some x →
  subscript index v = Returns x v.
Proof.
  intros Hi Hx. unfold subscript. rewrite bind_get.
  destruct (N.ltb_spec index (size_ v)); [|lia].
  unfold on_items, assert, st_bind, st_ret. by rewrite (load_returns _ _ _ Hx), eta.
Qed.

Lemma lookup_elements v (i : nat) :
  i < N.to_nat (size_ v) → elements v !! i = items_ v !! i.
Proof. intros Hi. unfold elements. by apply lookup_take_lt. Qed.

End Objects.

(** ** Capacity never shrinks under the calls that keep the buffer *)

Section Capacity.
Context {T : Type} `{Element T} `{Heap T}.
Implicit Types (v s : SimpleVector T).

Lemma returns_final {A} (m : M A) s a s' :
  m s = Returns a s' → final_state (m s) = Some s'.
Proof. by intros ->. Qed.

Lemma sc_bind {A B} (m : M A) (k : A → M B) s :
  same_capacity m s →
  (∀ a s', m s = Returns a s' → same_capacity (k a) s') →
  same_capacity (let* x := m in k x) s.
Proof.
  intros Hm Hk s'' Hfin. unfold same_capacity in Hm. unfold st_bind in Hfin.
  destruct (m s) as [a s' | e s' |] eqn:E; [| |done].
  - rewrite (Hk a s' eq_refl s'' Hfin). by apply Hm.
  - apply Hm. by injection Hfin as <-.
Qed.

Lemma sc_get {B} (k : SimpleVector T → M B) s :
  same_capacity (k s) s → same_capacity (let* x := get in k x) s.
Proof. intros Hk. exact Hk. Qed.

Lemma sc_ret {A} (a : A) s : same_capacity (st_ret a) s.
Proof. by intros s' [= <-]. Qed.

Lemma sc_assert (b : bool) s : same_capacity (assert b) s.
Proof. destruct b; [by intros s' [= <-] | done]. Qed.

Lemma sc_set_items b s : same_capacity (set_items b) s.
Proof. by intros s' [= <-]. Qed.

Lemma sc_set_size (n : N) s : same_capacity (set_size n) s.
Proof. by intros s' [= <-]. Qed.

Lemma sc_on_items {A} (m : St (list T) A) s : same_capacity (on_items m) s.
Proof.
  unfold same_capacity, on_items.
  destruct (m (items_ s)); [by intros s' [= <-] | by intros s' [= <-] | done].
Qed.

Lemma sc_on_local {A} (m : St (list T) A) b s : same_capacity (on_local m b) s.
Proof.
  unfold same_capacity, on_local.
  destruct (m b); [by intros s' [= <-] | by intros s' [= <-] | done].
Qed.

Lemma sc_ArrayPtr_new (n : N) s : same_capacity (ArrayPtr_new n) s.
Proof.
  unfold same_capacity, ArrayPtr_new.
  repeat case_match; by intros s' [= <-].
Qed.

Lemma sc_swap_items b s : same_capacity (swap_items b) s.
Proof.
  unfold swap_items. apply sc_get, sc_bind; [apply sc_set_items|].
  intros. apply sc_ret.
Qed.

Lemma sc_ReallocateCopy (n : N) s : same_capacity (ReallocateCopy n) s.
Proof.
  unfold ReallocateCopy. apply sc_bind; [apply sc_ArrayPtr_new|].
  intros b s1 _. apply sc_get, sc_bind; [apply sc_on_local|].
  intros [old new] s2 _. apply sc_bind; [apply sc_set_items|].
  intros. apply sc_ret.
Qed.

Lemma sc_Clear s : same_capacity Clear s.
Proof. apply sc_set_size. Qed.

Lemma sc_PopBack s : same_capacity PopBack s.
Proof.
  unfold PopBack. apply sc_get, sc_bind; [apply sc_assert|].
  intros. apply sc_set_size.
Qed.

Lemma sc_Erase (pos : N) s : same_capacity (Erase pos) s.
Proof.
  unfold Erase. apply sc_get, sc_bind; [apply sc_assert|].
  intros _ s1 _. apply sc_bind; [apply sc_on_items|].
  intros _ s2 _. apply sc_bind; [apply sc_set_size|].
  intros. apply sc_ret.
Qed.

Lemma kc_bind {A B} (m : M A) (k : A → M B) s :
  keeps_capacity m s →
  (∀ a s', m s = Returns a s' → keeps_capacity (k a) s') →
  keeps_capacity (let* x := m in k x) s.
Proof.
  intros Hm Hk s'' Hfin. unfold keeps_capacity in Hm. unfold st_bind in Hfin.
  destruct (m s) as [a s' | e s' |] eqn:E; [| |done].
  - specialize (Hm s' eq_refl). specialize (Hk a s' eq_refl s'' Hfin). lia.
  - apply Hm. by injection Hfin as <-.
Qed.

Lemma kc_get {B} (k : SimpleVector T → M B) s :
  keeps_capacity (k s) s → keeps_capacity (let* x := get in k x) s.
Proof. intros Hk. exact Hk. Qed.

Lemma kc_same {A} (m : M A) s : same_capacity m s → keeps_capacity m s.
Proof. intros Hm s' Hfin. rewrite (Hm s' Hfin). lia. Qed.

Lemma kc_set_capacity (n : N) s :
  (capacity_ s ≤ n)%N → keeps_capacity (set_capacity n) s.
Proof. intros Hn s' [= <-]. done. Qed.

(** After calls that leave the capacity alone, the rest of the body runs
    from the capacity at entry. *)
Lemma kc_after_same {A B} (m : M A) (k : A → M B) s :
  same_capacity m s →
  (∀ a s', capacity_ s' = capacity_ s → keeps_capacity (k a) s') →
  keeps_capacity (let* x := m in k x) s.
Proof.
  intros Hm Hk. apply kc_bind; [by apply kc_same|].
  intros a s' E. apply Hk. by apply Hm, (returns_final _ _ a).
Qed.

Lemma kc_Reserve (n : N) s : keeps_capacity (Reserve n) s.
Proof.
  unfold Reserve. apply kc_get.
  destruct (N.ltb_spec (capacity_ s) n) as [Hn|]; [|apply kc_same, sc_ret].
  apply kc_after_same; [apply sc_ReallocateCopy|]. intros b s1 E1.
  apply kc_after_same; [apply sc_swap_items|]. intros b' s2 E2.
  apply kc_set_capacity. lia.
Qed.

Lemma kc_Resize (n : N) s : keeps_capacity (Resize n) s.
Proof.
  unfold Resize. apply kc_get.
  apply kc_bind; [|intros; apply kc_same, sc_set_size].
  destruct (N.ltb_spec (capacity_ s) n) as [Hn|].
  - apply kc_after_same; [apply sc_ReallocateCopy|]. intros b s1 E1.
    apply kc_after_same; [apply sc_on_local|]. intros [u b'] s2 E2.
    apply kc_after_same; [apply sc_swap_items|]. intros b'' s3 E3.
    apply kc_set_capacity. lia.
  - destruct (N.ltb_spec (size_ s) n); apply kc_same; [apply sc_on_items | apply sc_ret].
Qed.

(** The tail of the growing branch of PushBack and Insert: reallocation,
    writes into the new buffer, adoption of the buffer. *)
Lemma kc_PushBack item s : keeps_capacity (PushBack item) s.
Proof.
  unfold PushBack. apply kc_get.
  apply kc_bind; [|intros; apply kc_same, sc_set_size].
  destruct (N.ltb_spec (capacity_ s) (wrap (size_ s + 1))) as [Hn|];
    [|apply kc_same, sc_on_items].
  apply kc_bind; [apply kc_set_capacity; lia|]. intros _ s1 _.
  apply kc_same, sc_get.
  apply sc_bind; [apply sc_ReallocateCopy|]. intros b s2 _.
  apply sc_bind; [apply sc_on_local|]. intros [u b'] s3 _.
  apply sc_bind; [apply sc_swap_items|]. intros. apply sc_ret.
Qed.

Lemma kc_PushBack_rv item s : keeps_capacity (PushBack_rv item) s.
Proof.
  unfold PushBack_rv. apply kc_get.
  apply kc_bind; [|intros; apply kc_same, sc_set_size].
  destruct (N.ltb_spec (capacity_ s) (wrap (size_ s + 1))) as [Hn|];
    [|apply kc_same, sc_on_items].
  apply kc_bind; [apply kc_set_capacity; lia|]. intros _ s1 _.
  apply kc_same, sc_get.
  apply sc_bind; [apply sc_ReallocateCopy|]. intros b s2 _.
  apply sc_bind; [apply sc_on_local|]. intros [u b'] s3 _.
  apply sc_bind; [apply sc_swap_items|]. intros. apply sc_ret.
Qed.

Lemma kc_Insert (pos : N) value s : keeps_capacity (Insert pos value) s.
Proof.
  unfold Insert. apply kc_get.
  apply kc_bind; [apply kc_same, sc_assert|]. intros [] s0 E0.
  assert (s0 = s) as ->.
  { unfold assert in E0. destruct (pos <=? size_ s)%N; [|done].
    unfold st_ret in E0. congruence. }
  apply kc_bind;
    [|intros; apply kc_same, sc_bind; [apply sc_set_size | intros; apply sc_ret]].
  destruct (N.leb_spec (wrap (size_ s + 1)) (capacity_ s)) as [|Hn];
    [apply kc_same, sc_on_items|].
  apply kc_bind; [apply kc_set_capacity; lia|]. intros _ s1 _.
  apply kc_same, sc_get.
  apply sc_bind; [apply sc_ArrayPtr_new|]. intros b s2 _.
  apply sc_bind; [apply sc_on_local|]. intros [u b'] s3 _.
  apply sc_bind; [apply sc_swap_items|]. intros. apply sc_ret.
Qed.

Lemma kc_Insert_rv (pos : N) value s : keeps_capacity (Insert_rv pos value) s.
Proof.
  unfold Insert_rv. apply kc_get.
  apply kc_bind; [apply kc_same, sc_assert|]. intros [] s0 E0.
  assert (s0 = s) as ->.
  { unfold assert in E0. destruct (pos <=? size_ s)%N; [|done].
    unfold st_ret in E0. congruence. }
  apply kc_bind;
    [|intros; apply kc_same, sc_bind; [apply sc_set_size | intros; apply sc_ret]].
  destruct (N.leb_spec (wrap (size_ s + 1)) (capacity_ s)) as [|Hn];
    [apply kc_same, sc_on_items|].
  apply kc_bind; [apply kc_set_capacity; lia|]. intros _ s1 _.
  apply kc_same, sc_get.
  apply sc_bind; [apply sc_ArrayPtr_new|]. intros b s2 _.
  apply sc_bind; [apply sc_on_local|]. intros [u b'] s3 _.
  apply sc_bind; [apply sc_set_items|]. intros _ s4 _.
  apply sc_bind; [apply sc_swap_items|]. intros. apply sc_ret.
Qed.

Lemma kc_perform (c : mutation T) s :
  keeps_own_buffer c = true → keeps_capacity (perform c) s.
Proof.
  destruct c; intros Hc; try discriminate Hc; simpl.
  - apply kc_Reserve.
  - apply kc_Resize.
  - apply kc_same, sc_Clear.
  - apply kc_PushBack.
  - apply kc_PushBack_rv.
  - apply kc_bind; [apply kc_Insert | intros; apply kc_same, sc_ret].
  - apply kc_bind; [apply kc_Insert_rv | intros; apply kc_same, sc_ret].
  - apply kc_same, sc_PopBack.
  - apply kc_bind; [apply kc_same, sc_Erase | intros; apply kc_same, sc_ret].
Qed.

Lemma kc_perform_all (cs : list (mutation T)) : ∀ s,
  forallb keeps_own_buffer cs = true → keeps_capacity (perform_all cs) s.
Proof.
  induction cs as [|c cs IH]; intros s Hcs; simpl.
  - apply kc_same, sc_ret.
  - simpl in Hcs. apply andb_prop in Hcs as [Hc Hcs].
    apply kc_bind; [by apply kc_perform|]. intros _ s' _. by apply IH.
Qed.

End Capacity.

(** ** Failure of an allocation *)

Section Failure.
Context {T : Type} `{Element T} `{Heap T}.
Implicit Types (v s : SimpleVector T).

(** Moves do not throw. *)
Lemma move_loop_no_throw n : ∀ (src : list T) first d_first dst e b,
  move_loop src first d_first n dst ≠ Throws e b.
Proof.
  induction n as [|n IH]; intros src first d dst e b; simpl; [done|].
  destruct (src !! first); [|done].
  unfold st_bind, store. destruct (d <? length dst); [|done]. apply IH.
Qed.

Lemma ReallocateCopy_throw_unchanged (n : N) v e s' :
  ReallocateCopy n v = Throws e s' → s' = v ∧ can_allocate n = false.
Proof.
  unfold ReallocateCopy. intros E.
  destruct (can_allocate n) eqn:Ha.
  - erewrite bind_returns in E by by apply ArrayPtr_new_returns.
    rewrite bind_get in E. unfold st_bind, on_local, std_move in E.
    destruct (_ <? 0); [done|].
    destruct move_loop as [o b | e' b |] eqn:Em; [done | | done].
    by apply move_loop_no_throw in Em.
  - erewrite bind_throws in E by by apply ArrayPtr_new_throws.
    by injection E as _ <-.
Qed.

(** Reserve is all or nothing: the capacity is written after the new
    buffer is in place. *)
Lemma Reserve_throw_unchanged (n : N) v e s' :
  Reserve n v = Throws e s' → s' = v.
Proof.
  unfold Reserve. rewrite bind_get. destruct (_ <? _)%N; [|done].
  unfold st_bind at 1.
  destruct ReallocateCopy as [b s1 | e1 s1 |] eqn:E1; [done | | done].
  intros [= -> ->]. by apply ReallocateCopy_throw_unchanged in E1 as [-> _].
Qed.

(** So is Resize when the allocation fails. *)
Lemma Resize_bad_alloc_unchanged (n : N) v :
  (capacity_ v < n)%N →
  can_allocate (N.max (wrap (capacity_ v * 2)) n) = false →
  Resize n v = Throws bad_alloc v.
Proof.
  intros Hn Ha. unfold Resize. rewrite bind_get.
  apply N.ltb_lt in Hn as ->.
  erewrite bind_throws; [done|].
  by erewrite bind_throws by by apply ReallocateCopy_throws.
Qed.

(** A failed copy leaves the target of a copy assignment as it was. *)
Lemma SimpleVector_copy_throw_unchanged {X} (other : SimpleVector T) (t t' : X) e :
  SimpleVector_copy other t = Throws e t' → t' = t.
Proof.
  unfold SimpleVector_copy, st_bind, ArrayPtr_new, on_local, st_ret, throw.
  repeat case_match; congruence.
Qed.

Lemma SimpleVector_copy_empty {X} (other : SimpleVector T) (t : X) :
  IsEmpty other = true →
  SimpleVector_copy other t = Returns {| items_ := []; size_ := 0; capacity_ := 0 |} t.
Proof.
  unfold IsEmpty. intros Hs%N.eqb_eq. unfold SimpleVector_copy. rewrite Hs. reflexivity.
Qed.

Lemma assign_other_throw_unchanged (rhs : SimpleVector T) v e s' :
  assign_other rhs v = Throws e s' → s' = v.
Proof.
  unfold assign_other. destruct (IsEmpty rhs) eqn:Hempty.
  - unfold st_bind at 1. unfold Clear, set_size.
    by erewrite bind_returns by by apply SimpleVector_copy_empty.
  - rewrite bind_ret. unfold st_bind at 1.
    destruct SimpleVector_copy as [c s1 | e1 s1 |] eqn:Ec; [done | | done].
    intros [= -> ->]. by apply SimpleVector_copy_throw_unchanged in Ec.
Qed.

(** PushBack and Insert write the new capacity first: when the allocation
    then fails, the object keeps the old buffer under the new capacity. *)
Lemma PushBack_bad_alloc item v :
  consistent v = true → capacity_ v = size_ v →
  can_allocate (N.max (capacity_ v * 2) (size_ v + 1)) = false →
  PushBack item v =
    Throws bad_alloc {| items_ := items_ v; size_ := size_ v;
                        capacity_ := N.max (capacity_ v * 2) (size_ v + 1) |}.
Proof.
  intros (Hs & Hl & Hm)%consistent_spec Hfull Ha.
  unfold PushBack. rewrite bind_get. rewrite !wrap_small by lia.
  destruct (N.ltb_spec (capacity_ v) (size_ v + 1)); [|lia].
  erewrite bind_throws; [done|].
  unfold st_bind at 1, set_capacity. rewrite bind_get. cbn [capacity_].
  by erewrite bind_throws by by apply ReallocateCopy_throws.
Qed.

Lemma Insert_bad_alloc (pos : N) value v :
  consistent v = true → capacity_ v = size_ v → (pos ≤ size_ v)%N →
  can_allocate (N.max (capacity_ v * 2) (size_ v + 1)) = false →
  Insert pos value v =
    Throws bad_alloc {| items_ := items_ v; size_ := size_ v;
                        capacity_ := N.max (capacity_ v * 2) (size_ v + 1) |}.
Proof.
  intros (Hs & Hl & Hm)%consistent_spec Hfull Hpos Ha.
  unfold Insert. rewrite bind_get.
  rewrite bind_assert_true by by apply N.leb_le.
  rewrite !wrap_small by lia.
  destruct (N.leb_spec (size_ v + 1) (capacity_ v)); [lia|].
  erewrite bind_throws; [done|].
  unfold st_bind at 1, set_capacity. rewrite bind_get. cbn [capacity_].
  by erewrite bind_throws by by apply ArrayPtr_new_throws.
Qed.

Lemma capacity_ahead_inconsistent v (c : N) :
  consistent v = true → (capacity_ v < c)%N →
  consistent {| items_ := items_ v; size_ := size_ v; capacity_ := c |} = false.
Proof.
  intros (Hs & Hl & Hm)%consistent_spec Hc.
  apply not_true_is_false. intros (_ & Hl' & _)%consistent_spec.
  cbn [items_ capacity_] in Hl'. lia.
Qed.

End Failure.

(** ** Consistency is kept by every call but a failed PushBack or Insert *)

Section Triples.
Context {X : Type}.

Lemma triple_bind {A B} (m : St X A) (k : A → St X B) s
    (R1 : A → X → Prop) (R : B → X → Prop) (E : X → Prop) :
  triple m s R1 E →
  (∀ a s', R1 a s' → triple (k a) s' R E) →
  triple (let* x := m in k x) s R E.
Proof.
  unfold triple, st_bind. intros Hm Hk.
  destruct (m s) as [a s' | e s' |]; [by apply Hk | done | done].
Qed.

Lemma triple_weaken {A} (m : St X A) s (R R' : A → X → Prop) (E E' : X → Prop) :
  triple m s R E →
  (∀ a s', R a s' → R' a s') → (∀ s', E s' → E' s') →
  triple m s R' E'.
Proof.
  unfold triple. intros Hm HR HE.
  destruct (m s); [by apply HR | by apply HE | done].
Qed.

(** Sequencing after a call whose specification is known. *)
Lemma triple_seq {A B} (m : St X A) (k : A → St X B) s
    (R1 : A → X → Prop) (E1 : X → Prop) (R : B → X → Prop) (E : X → Prop) :
  triple m s R1 E1 →
  (∀ s', E1 s' → E s') →
  (∀ a s', R1 a s' → triple (k a) s' R E) →
  triple (let* x := m in k x) s R E.
Proof.
  intros Hm HE Hk. eapply triple_bind; [|exact Hk].
  eapply triple_weaken; [exact Hm | done | exact HE].
Qed.

Lemma triple_ret {A} (a : A) s (R : A → X → Prop) E :
  R a s → triple (st_ret a) s R E.
Proof. done. Qed.

Lemma triple_get {B} (k : X → St X B) s R E :
  triple (k s) s R E → triple (let* x := get in k x) s R E.
Proof. done. Qed.

Lemma triple_assert {B} (b : bool) (k : St X B) s R E :
  (b = true → triple k s R E) → triple (assert b >> k) s R E.
Proof. intros Hk. destruct b; [by apply Hk | done]. Qed.

Lemma triple_undefined {A} s (R : A → X → Prop) E : triple undefined s R E.
Proof. done. Qed.

End Triples.

Section BufferLength.
Context {T : Type} `{Element T}.
Implicit Types (buf src dst : list T) (x value : T).

Lemma kl_bind {A B} (m : St (list T) A) (k : A → St (list T) B) :
  keeps_length m → (∀ a, keeps_length (k a)) → keeps_length (let* a := m in k a).
Proof.
  intros Hm Hk buf. eapply triple_bind; [apply Hm|].
  intros a buf' Hlen. cbv beta in Hlen. rewrite <- Hlen. apply Hk.
Qed.

Lemma kl_ret {A} (a : A) : keeps_length (T := T) (st_ret a).
Proof. by intros buf. Qed.

Lemma kl_undefined {A} : keeps_length (T := T) (A := A) undefined.
Proof. by intros buf. Qed.

Lemma kl_load i : keeps_length (T := T) (load i).
Proof. intros buf. unfold triple, load. by destruct (buf !! i). Qed.

Lemma kl_store i x : keeps_length (store i x).
Proof.
  intros buf. unfold triple, store.
  destruct (i <? length buf); [apply length_insert | done].
Qed.

Lemma kl_store_copy i x : keeps_length (store_copy i x).
Proof.
  intros buf. unfold triple, store_copy.
  destruct (i <? length buf); [|done].
  destruct (copy_ok x); [apply length_insert | done].
Qed.

Lemma kl_fill_loop n : ∀ first value, keeps_length (fill_loop first n value).
Proof.
  induction n as [|n IH]; intros first value; simpl; [apply kl_ret|].
  apply kl_bind; [apply kl_store_copy | intros; apply IH].
Qed.

Lemma kl_std_fill first last value : keeps_length (std_fill first last value).
Proof.
  unfold std_fill. destruct (last <? first); [apply kl_undefined | apply kl_fill_loop].
Qed.

Lemma kl_copy_loop n : ∀ src first d_first, keeps_length (copy_loop src first d_first n).
Proof.
  induction n as [|n IH]; intros src first d; simpl; [apply kl_ret|].
  destruct (src !! first); [|apply kl_undefined].
  apply kl_bind; [apply kl_store_copy | intros; apply IH].
Qed.

Lemma kl_std_copy src first last d_first : keeps_length (std_copy src first last d_first).
Proof.
  unfold std_copy. destruct (last <? first); [apply kl_undefined | apply kl_copy_loop].
Qed.

Lemma kl_copy_backward_loop n : ∀ last d_last,
  keeps_length (T := T) (copy_backward_loop last d_last n).
Proof.
  induction n as [|n IH]; intros last d; simpl; [apply kl_ret|].
  destruct last, d; try apply kl_undefined.
  apply kl_bind; [apply kl_load|]. intros x.
  apply kl_bind; [apply kl_store_copy | intros; apply IH].
Qed.

Lemma kl_std_copy_backward first last d_last :
  keeps_length (T := T) (std_copy_backward first last d_last).
Proof.
  unfold std_copy_backward.
  destruct (last <? first); [apply kl_undefined | apply kl_copy_backward_loop].
Qed.

Lemma kl_move_within_loop n : ∀ first d_first,
  keeps_length (T := T) (move_within_loop first d_first n).
Proof.
  induction n as [|n IH]; intros first d; simpl; [apply kl_ret|].
  apply kl_bind; [apply kl_load|]. intros x.
  apply kl_bind; [apply kl_store|]. intros _.
  apply kl_bind; [apply kl_store | intros; apply IH].
Qed.

Lemma kl_std_move_within first last d_first :
  keeps_length (T := T) (std_move_within first last d_first).
Proof.
  unfold std_move_within.
  destruct (last <? first); [apply kl_undefined | apply kl_move_within_loop].
Qed.

Lemma kl_move_backward_loop n : ∀ last d_last,
  keeps_length (T := T) (move_backward_loop last d_last n).
Proof.
  induction n as [|n IH]; intros last d; simpl; [apply kl_ret|].
  destruct last, d; try apply kl_undefined.
  apply kl_bind; [apply kl_load|]. intros x.
  apply kl_bind; [apply kl_store|]. intros _.
  apply kl_bind; [apply kl_store | intros; apply IH].
Qed.

Lemma kl_std_move_backward first last d_last :
  keeps_length (T := T) (std_move_backward first last d_last).
Proof.
  unfold std_move_backward.
  destruct (last <? first); [apply kl_undefined | apply kl_move_backward_loop].
Qed.

(** A move between two buffers keeps the slots of both and does not throw. *)
Lemma move_loop_lengths n : ∀ src first d_first dst,
  triple (move_loop src first d_first n) dst
         (λ src' dst', length src' = length src ∧ length dst' = length dst)
         (λ _, False).
Proof.
  induction n as [|n IH]; intros src first d dst; simpl; [done|].
  destruct (src !! first) as [x|]; [|done].
  unfold triple, st_bind, store. destruct (d <? length dst); [|done].
  specialize (IH (<[first:=moved_from x]> src) (S first) (S d) (<[d:=x]> dst)).
  unfold triple in IH. destruct move_loop; [|done|done].
  by rewrite !length_insert in IH.
Qed.

Lemma std_move_lengths src first last d_first dst :
  triple (std_move src first last d_first) dst
         (λ src' dst', length src' = length src ∧ length dst' = length dst)
         (λ _, False).
Proof.
  unfold std_move. destruct (last <? first); [done | apply move_loop_lengths].
Qed.

End BufferLength.

Section Invariant.
Context {T : Type} `{Element T} `{Heap T}.
Implicit Types (v s : SimpleVector T) (buf : list T).

Lemma same_shape_refl v : same_shape v v.
Proof. done. Qed.

Lemma consistent_same_shape v s' :
  consistent v = true → same_shape v s' → consistent s' = true.
Proof.
  intros (Hs & Hl & Hm)%consistent_spec (Hs' & Hc' & Hl').
  apply consistent_spec. rewrite Hs', Hc', Hl'. done.
Qed.

Lemma ArrayPtr_new_triple {X} (n : N) (t : X) :
  triple (ArrayPtr_new n) t
         (λ b t', t' = t ∧ length b = N.to_nat n ∧ (n ≤ max_slots)%N)
         (λ t', t' = t).
Proof.
  unfold triple. destruct (can_allocate n) eqn:Ha.
  - rewrite ArrayPtr_new_returns by done.
    split_and!; [done | apply length_fresh_buffer | by apply can_allocate_bound].
  - by rewrite ArrayPtr_new_throws.
Qed.

Lemma on_local_triple {X A} (m : St (list T) A) buf (t : X) :
  keeps_length m →
  triple (on_local m buf) t (λ r t', t' = t ∧ length r.2 = length buf) (λ t', t' = t).
Proof.
  intros Hm. specialize (Hm buf). unfold triple, on_local in *.
  by destruct (m buf).
Qed.

Lemma on_items_triple {A} (m : St (list T) A) v :
  keeps_length m →
  triple (on_items m) v (λ _ s', same_shape v s') (λ s', same_shape v s').
Proof.
  intros Hm. specialize (Hm (items_ v)). unfold triple, on_items in *.
  by destruct (m (items_ v)).
Qed.

Lemma ReallocateCopy_triple (n : N) v :
  triple (ReallocateCopy n) v
         (λ b s', same_shape v s' ∧ length b = N.to_nat n ∧ (n ≤ max_slots)%N)
         (λ s', s' = v).
Proof.
  unfold ReallocateCopy.
  eapply triple_bind; [apply ArrayPtr_new_triple|].
  intros b s' (-> & Hb & Hn). apply triple_get.
  pose proof (std_move_lengths (items_ v) 0 (N.to_nat (N.min n (size_ v))) 0 b) as Hmove.
  unfold triple, st_bind, on_local in *.
  destruct std_move as [old new | |]; [|done|done].
  destruct Hmove as [Hold Hnew]. unfold set_items, st_ret.
  split_and!; [by split_and! | lia | done].
Qed.

Lemma Reserve_keeps_consistent (n : N) v :
  consistent v = true →
  triple (Reserve n) v (λ _ s', consistent s' = true) (λ s', consistent s' = true).
Proof.
  intros Hv. pose proof Hv as (Hs & Hl & Hm)%consistent_spec.
  unfold Reserve. apply triple_get.
  destruct (N.ltb_spec (capacity_ v) n) as [Hn|]; [|done].
  eapply triple_seq; [apply ReallocateCopy_triple | by intros s' -> |].
  intros b s' ((Hs' & Hc' & Hl') & Hb & Hmax).
  unfold triple, swap_items, st_bind, get, set_items, set_capacity, st_ret.
  apply consistent_spec. cbn [items_ size_ capacity_]. lia.
Qed.

Lemma fits_same_shape (n : N) v s' :
  consistent v = true → (n ≤ capacity_ v)%N → same_shape v s' → fits n s'.
Proof.
  intros (Hs & Hl & Hm)%consistent_spec Hn (Hs' & Hc' & Hl').
  unfold fits. rewrite Hc', Hl'. done.
Qed.

Lemma set_size_fits (n : N) s (E : SimpleVector T → Prop) :
  fits n s → triple (set_size n) s (λ _ s', consistent s' = true) E.
Proof. intros Hfit. unfold triple, set_size. by apply consistent_spec. Qed.

(** The body up to the final write of [size_] leaves an object that fits
    the new size. *)
Lemma then_set_size {A} (m : M A) (n : N) v (E : SimpleVector T → Prop) :
  triple m v (λ _ s', fits n s') E →
  triple (m >> set_size n) v (λ _ s', consistent s' = true) E.
Proof.
  intros Hm. eapply triple_bind; [exact Hm|].
  intros a s' Hfit. by apply set_size_fits.
Qed.

(** Adopting a buffer of the new capacity. *)
Lemma adopt_fits (n c : N) s buf :
  (n ≤ c)%N → length buf = N.to_nat c → (c ≤ max_slots)%N →
  fits n {| items_ := buf; size_ := size_ s; capacity_ := c |}.
Proof. done. Qed.

Lemma Resize_keeps_consistent (n : N) v :
  consistent v = true →
  triple (Resize n) v (λ _ s', consistent s' = true) (λ s', consistent s' = true).
Proof.
  intros Hv. pose proof Hv as (Hs & Hl & Hm)%consistent_spec.
  unfold Resize. apply triple_get, then_set_size.
  destruct (N.ltb_spec (capacity_ v) n) as [Hn|].
  - eapply triple_seq; [apply ReallocateCopy_triple | by intros s' -> |].
    intros b s1 (Hshape & Hb & Hmax).
    eapply triple_seq; [apply on_local_triple, kl_std_fill | |].
    { intros s2 ->. by apply (consistent_same_shape v). }
    intros [u b'] s2 [-> Hb']. simpl in Hb'.
    unfold triple, swap_items, st_bind, get, set_items, set_capacity, st_ret.
    cbn [items_ size_ capacity_]. apply adopt_fits; lia.
  - destruct (N.ltb_spec (size_ v) n).
    + eapply triple_weaken; [apply on_items_triple, kl_std_fill | |]; cbv beta.
      * intros _ s' Hshape. by apply (fits_same_shape n v).
      * intros s' Hshape. by apply (consistent_same_shape v).
    + apply triple_ret. unfold fits. lia.
Qed.

Lemma Clear_keeps_consistent v :
  consistent v = true →
  triple Clear v (λ _ s', consistent s' = true) (λ s', consistent s' = true).
Proof.
  intros (Hs & Hl & Hm)%consistent_spec. apply set_size_fits. unfold fits. lia.
Qed.

Lemma PopBack_keeps_consistent v :
  consistent v = true →
  triple PopBack v (λ _ s', consistent s' = true) (λ s', consistent s' = true).
Proof.
  intros (Hs & Hl & Hm)%consistent_spec. unfold PopBack. apply triple_get.
  apply triple_assert. unfold IsEmpty, decrement. intros Hne.
  destruct (N.eqb_spec (size_ v) 0); [done|].
  apply set_size_fits. unfold fits. lia.
Qed.

Lemma Erase_keeps_consistent (pos : N) v :
  consistent v = true →
  triple (Erase pos) v (λ _ s', consistent s' = true) (λ s', consistent s' = true).
Proof.
  intros Hv. pose proof Hv as (Hs & Hl & Hm)%consistent_spec.
  unfold Erase. apply triple_get. apply triple_assert. intros Hpos%N.ltb_lt.
  eapply triple_seq; [apply on_items_triple, kl_std_move_within | |].
  { intros s' Hshape. by apply (consistent_same_shape v). }
  intros a s' Hshape.
  eapply triple_bind; [apply set_size_fits|by intros a' s'' Hc; apply triple_ret].
  unfold decrement. destruct (N.eqb_spec (size_ v) 0); [lia|].
  apply (fits_same_shape _ v); [done | lia | done].
Qed.

Lemma triple_set_capacity {B} (c : N) (k : M B) v R E :
  triple k {| items_ := items_ v; size_ := size_ v; capacity_ := c |} R E →
  triple (set_capacity c >> k) v R E.
Proof. done. Qed.

(** PushBack and Insert: a return leaves a consistent object; nothing is
    said of a throw. *)
Lemma grow_then_adopt {A} (fill : list T → St (list T) A) (new_size : N) v :
  (capacity_ v < new_size)%N →
  (∀ b, keeps_length (fill b)) →
  triple (set_capacity (N.max (wrap (capacity_ v * 2)) new_size) >>
          let* this' := get in
          let* new_items := ReallocateCopy (capacity_ this') in
          let* (_, new_items) := on_local (fill new_items) new_items in
          let* _ := swap_items new_items in
          st_ret ())
         v (λ _ s', fits new_size s') (λ _, True).
Proof.
  intros Hn Hfill.
  apply triple_set_capacity, triple_get. cbn [capacity_].
  eapply triple_seq; [apply ReallocateCopy_triple | done |].
  intros b s1 ((Hs1 & Hc1 & Hl1) & Hb & Hmax).
  eapply triple_seq; [apply on_local_triple, Hfill | done |].
  intros [u b'] s2 [-> Hb']. simpl in Hb'.
  unfold triple, swap_items, st_bind, get, set_items, st_ret.
  cbn [items_ size_ capacity_] in *. rewrite Hc1. apply adopt_fits; lia.
Qed.

Lemma PushBack_keeps_consistent item v :
  consistent v = true →
  triple (PushBack item) v (λ _ s', consistent s' = true) (λ _, True).
Proof.
  intros Hv. unfold PushBack. apply triple_get, then_set_size.
  destruct (N.ltb_spec (capacity_ v) (wrap (size_ v + 1))) as [Hn|].
  - apply (grow_then_adopt (λ _, store_copy _ item)); [done|].
    intros _. apply kl_store_copy.
  - eapply triple_weaken; [apply on_items_triple, kl_store_copy | |]; cbv beta.
    + intros _ s' Hshape. by apply (fits_same_shape _ v).
    + done.
Qed.

Lemma PushBack_rv_keeps_consistent item v :
  consistent v = true →
  triple (PushBack_rv item) v (λ _ s', consistent s' = true) (λ _, True).
Proof.
  intros Hv. unfold PushBack_rv. apply triple_get, then_set_size.
  destruct (N.ltb_spec (capacity_ v) (wrap (size_ v + 1))) as [Hn|].
  - apply (grow_then_adopt (λ _, store _ item)); [done|].
    intros _. apply kl_store.
  - eapply triple_weaken; [apply on_items_triple, kl_store | |]; cbv beta.
    + intros _ s' Hshape. by apply (fits_same_shape _ v).
    + done.
Qed.

Lemma kl_std_move (src : list T) first last d_first :
  keeps_length (std_move src first last d_first).
Proof.
  intros buf. eapply triple_weaken; [apply std_move_lengths | |]; cbv beta.
  - by intros src' buf' [_ Hlen].
  - done.
Qed.

Lemma then_set_size_ret {A B} (m : M A) (n : N) (b : B) v (E : SimpleVector T → Prop) :
  triple m v (λ _ s', fits n s') E →
  triple (m >> set_size n >> st_ret b) v (λ _ s', consistent s' = true) E.
Proof.
  intros Hm. eapply triple_bind; [exact Hm|].
  intros a s' Hfit. unfold triple, st_bind, set_size, st_ret.
  by apply consistent_spec.
Qed.

Lemma Insert_keeps_consistent (pos : N) value v :
  consistent v = true →
  triple (Insert pos value) v (λ _ s', consistent s' = true) (λ _, True).
Proof.
  intros Hv. unfold Insert. apply triple_get, triple_assert. intros _.
  apply then_set_size_ret.
  destruct (N.leb_spec (wrap (size_ v + 1)) (capacity_ v)) as [Hroom | Hfull].
  - eapply triple_weaken; [apply on_items_triple | |]; cbv beta.
    + apply kl_bind; [apply kl_std_copy_backward | intros; apply kl_store_copy].
    + intros _ s' Hshape. by apply (fits_same_shape _ v).
    + done.
  - apply triple_set_capacity, triple_get. cbn [items_ size_ capacity_].
    eapply triple_seq; [apply ArrayPtr_new_triple | done |].
    intros b s1 (-> & Hb & Hmax).
    eapply triple_seq; [apply on_local_triple | done |].
    { apply kl_bind; [apply kl_std_copy | intros _].
      apply kl_bind; [apply kl_store_copy | intros; apply kl_std_copy]. }
    intros [u b'] s2 [-> Hb']. simpl in Hb'.
    unfold triple, swap_items, st_bind, get, set_items, st_ret.
    cbn [items_ size_ capacity_]. apply adopt_fits; lia.
Qed.

Lemma Insert_rv_keeps_consistent (pos : N) value v :
  consistent v = true →
  triple (Insert_rv pos value) v (λ _ s', consistent s' = true) (λ _, True).
Proof.
  intros Hv. unfold Insert_rv. apply triple_get, triple_assert. intros _.
  apply then_set_size_ret.
  destruct (N.leb_spec (wrap (size_ v + 1)) (capacity_ v)) as [Hroom | Hfull].
  - eapply triple_weaken; [apply on_items_triple | |]; cbv beta.
    + apply kl_bind; [apply kl_std_move_backward | intros; apply kl_store].
    + intros _ s' Hshape. by apply (fits_same_shape _ v).
    + done.
  - apply triple_set_capacity, triple_get. cbn [items_ size_ capacity_].
    eapply triple_seq; [apply ArrayPtr_new_triple | done |].
    intros b s1 (-> & Hb & Hmax).
    eapply triple_seq; [apply on_local_triple | done |].
    { apply kl_bind; [apply kl_std_move | intros old].
      apply kl_bind; [apply kl_store | intros; apply kl_std_move]. }
    intros [old b'] s2 [-> Hb']. simpl in Hb'.
    unfold triple, swap_items, st_bind, get, set_items, st_ret.
    cbn [items_ size_ capacity_]. apply adopt_fits; lia.
Qed.

Lemma SimpleVector_copy_triple {X} (other : SimpleVector T) (t : X) :
  triple (SimpleVector_copy other) t
         (λ c t', t' = t ∧ consistent c = true) (λ t', t' = t).
Proof.
  unfold SimpleVector_copy.
  eapply triple_seq; [apply ArrayPtr_new_triple | done |].
  intros b t1 (-> & Hb & Hmax).
  eapply triple_seq; [apply on_local_triple, kl_std_copy | done |].
  intros [u b'] t2 [-> Hb']. simpl in Hb'.
  apply triple_ret. split; [done|].
  apply consistent_spec. cbn [items_ size_ capacity_]. lia.
Qed.

Lemma assign_other_keeps_consistent (rhs : SimpleVector T) v :
  consistent v = true →
  triple (assign_other rhs) v (λ _ s', consistent s' = true)
         (λ s', consistent s' = true).
Proof.
  intros Hv. unfold assign_other.
  eapply triple_bind with (R1 := λ _ s', consistent s' = true).
  { destruct (IsEmpty rhs); [by apply Clear_keeps_consistent | done]. }
  intros _ s1 Hs1.
  eapply triple_seq; [apply SimpleVector_copy_triple | by intros s' -> |].
  by intros c s2 [-> Hc].
Qed.

(** Every call leaves a consistent object when it returns, and every call
    but PushBack and Insert also when it throws. *)
Lemma perform_keeps_consistent (c : mutation T) v :
  consistent v = true → consistent_argument c = true →
  triple (perform c) v
         (λ _ s', consistent s' = true)
         (λ s', writes_capacity_last c = true → consistent s' = true).
Proof.
  intros Hv Harg.
  destruct c; simpl;
    try (eapply triple_weaken;
         [first [ by apply Reserve_keeps_consistent
                | by apply Resize_keeps_consistent
                | by apply Clear_keeps_consistent
                | by apply PushBack_keeps_consistent
                | by apply PushBack_rv_keeps_consistent
                | by apply PopBack_keeps_consistent
                | by apply assign_other_keeps_consistent ]
         | done | done ]).
  - eapply triple_seq; [by apply Insert_keeps_consistent | done | done].
  - eapply triple_seq; [by apply Insert_rv_keeps_consistent | done | done].
  - eapply triple_seq; [by apply Erase_keeps_consistent | done | done].
  - done.
Qed.

Lemma perform_all_keeps_consistent (cs : list (mutation T)) : ∀ v,
  consistent v = true → forallb consistent_argument cs = true →
  triple (perform_all cs) v (λ _ s', consistent s' = true) (λ _, True).
Proof.
  induction cs as [|c cs IH]; intros v Hv Hargs; simpl; [done|].
  simpl in Hargs. apply andb_prop in Hargs as [Harg Hargs].
  eapply triple_seq; [by apply perform_keeps_consistent | done |].
  intros a s' Hs'. by apply IH.
Qed.

(** The constructors build consistent objects. *)
Lemma SimpleVector_default_consistent : consistent (T := T) SimpleVector_default = true.
Proof. reflexivity. Qed.

Lemma SimpleVector_fill_triple {X} (size : N) (value : T) (t : X) :
  triple (SimpleVector_fill size value) t
         (λ c t', t' = t ∧ consistent c = true ∧ size_ c = size ∧ capacity_ c = size)
         (λ t', t' = t).
Proof.
  unfold SimpleVector_fill.
  eapply triple_seq; [apply ArrayPtr_new_triple | done |].
  intros b t1 (-> & Hb & Hmax).
  eapply triple_seq; [apply on_local_triple, kl_std_fill | done |].
  intros [u b'] t2 [-> Hb']. simpl in Hb'.
  apply triple_ret. split_and!; [done | | done | done].
  apply consistent_spec. cbn [items_ size_ capacity_]. lia.
Qed.

Lemma SimpleVector_init_triple {X} (init : list T) (t : X) :
  triple (SimpleVector_init init) t
         (λ c t', t' = t ∧ consistent c = true ∧ size_ c = N.of_nat (length init))
         (λ t', t' = t).
Proof.
  unfold SimpleVector_init.
  eapply triple_seq; [apply ArrayPtr_new_triple | done |].
  intros b t1 (-> & Hb & Hmax).
  eapply triple_seq; [apply on_local_triple, kl_std_copy | done |].
  intros [u b'] t2 [-> Hb']. simpl in Hb'.
  apply triple_ret. split_and!; [done | | done].
  apply consistent_spec. cbn [items_ size_ capacity_]. lia.
Qed.

Lemma SimpleVector_reserved_triple {X} (reserved : N) (t : X) :
  triple (SimpleVector_reserved reserved) t
         (λ c t', t' = t ∧ consistent c = true ∧ size_ c = 0%N ∧ capacity_ c = reserved)
         (λ t', t' = t).
Proof.
  unfold SimpleVector_reserved.
  eapply triple_seq; [apply ArrayPtr_new_triple | done |].
  intros b t1 (-> & Hb & Hmax).
  apply triple_ret. split_and!; [done | | done | done].
  apply consistent_spec. cbn [items_ size_ capacity_]. lia.
Qed.

End Invariant.

(** ** Comparison operators *)

Section Ordering.
Context {T : Type} `{Element T}.
Implicit Types (lhs rhs : SimpleVector T).

(** [std::lexicographical_compare] decides the order of the specification. *)
Lemma lexicographical_compare_spec (r1 : list T) : ∀ r2 : list T,
  lexicographical_compare r1 r2 = true ↔ lexicographic_lt r1 r2.
Proof.
  induction r1 as [|x r1 IH]; intros [|y r2]; simpl.
  - split; [done | inversion 1].
  - split; [constructor | done].
  - split; [done | inversion 1].
  - destruct (elem_lt x y) eqn:Hxy.
    + split; [intros _; by apply lex_less | done].
    + destruct (elem_lt y x) eqn:Hyx.
      * split; [done|]. inversion 1; congruence.
      * rewrite IH. split; [by apply lex_next|]. inversion 1; congruence.
Qed.

Lemma operator_lt_spec lhs rhs :
  operator_lt lhs rhs = true ↔ lexicographic_lt (elements lhs) (elements rhs).
Proof. apply lexicographical_compare_spec. Qed.

(** [>] and [<=] are derived from [<] in the standard way. *)
Lemma operator_gt_spec lhs rhs : operator_gt lhs rhs = operator_lt rhs lhs.
Proof. reflexivity. Qed.

Lemma operator_le_spec lhs rhs : operator_le lhs rhs = negb (operator_gt lhs rhs).
Proof. reflexivity. Qed.

(** [>=] negates [>] where it should negate [<], which makes it [<=]. *)
Lemma operator_ge_is_operator_le lhs rhs :
  operator_ge lhs rhs = operator_le lhs rhs.
Proof. reflexivity. Qed.

End Ordering.

(** The three comparisons the specification lists. *)
Lemma lexicographic_examples :
  operator_lt {| items_ := [1; 2]%Z; size_ := 2; capacity_ := 2 |} one_two_three = true
  ∧ operator_lt one_two_three {| items_ := [1; 3]%Z; size_ := 2; capacity_ := 2 |} = true
  ∧ operator_lt {| items_ := [1; 2]%Z; size_ := 2; capacity_ := 2 |}
                {| items_ := [1; 3]%Z; size_ := 2; capacity_ := 2 |} = true.
Proof. split_and!; reflexivity. Qed.

(** ** Insert and Erase *)

Section InsertErase.
Context {T : Type} `{Element T} `{Heap T}.
Implicit Types (v : SimpleVector T) (buf items dst : list T) (value : T).

Lemma forallb_take_drop (f : T → bool) items (p sz : nat) :
  p ≤ sz → forallb f (take sz items) = true →
  forallb f (take p items) = true ∧ forallb f (take (sz - p) (drop p items)) = true.
Proof.
  intros Hp Hf. replace sz with (p + (sz - p)) in Hf by lia.
  rewrite <- take_take_drop, forallb_app in Hf. by apply andb_prop in Hf.
Qed.

(** The three steps of the growing branch of Insert on the new buffer. *)
Lemma insert_into_fresh items dst (p sz : nat) value :
  p ≤ sz → sz ≤ length items → S sz ≤ length dst →
  copy_ok value = true → forallb copy_ok (take sz items) = true →
  (std_copy items 0 p 0 >>
   store_copy p value >>
   std_copy items p sz (p + 1)) dst =
    Returns () (take p items ++ value :: take (sz - p) (drop p items)
                  ++ drop (S sz) dst).
Proof.
  intros Hp Hsz Hd Hv Hall.
  destruct (forallb_take_drop _ _ _ _ Hp Hall) as [Hpre Hsuf].
  erewrite bind_returns; cycle 1.
  { apply std_copy_returns; rewrite ?Nat.sub_0_r, ?drop_0; (done || lia). }
  rewrite Nat.sub_0_r, drop_0, take_0. simpl.
  assert (length (take p items) = p) as Hlen by (rewrite length_take; lia).
  assert (<[p:=value]> (take p items ++ drop p dst)
          = (take p items ++ [value]) ++ drop (S p) dst) as Hwrite.
  { rewrite insert_take_drop by (rewrite length_app, length_drop; lia).
    rewrite take_app_length' by done.
    rewrite drop_app_ge, drop_drop, Hlen by lia.
    replace (p + (S p - p)) with (S p) by lia. by rewrite <- app_assoc. }
  erewrite bind_returns; cycle 1.
  { apply store_copy_returns; [|done].
    rewrite length_app, length_drop. lia. }
  rewrite Hwrite.
  rewrite std_copy_returns; try (done || lia); cycle 1.
  { rewrite !length_app, length_drop. simpl. lia. }
  rewrite take_app_length' by (rewrite length_app; simpl; lia).
  rewrite drop_app_ge, drop_drop by (rewrite length_app; simpl; lia).
  rewrite length_app, Hlen. simpl.
  replace (S (p + (p + 1 + (sz - p) - (p + 1)))) with (S sz) by lia.
  by rewrite <- app_assoc.
Qed.

(** The two steps of the other branch, inside the buffer of the object. *)
Lemma shift_and_write buf (p sz : nat) value :
  p ≤ sz → S sz ≤ length buf →
  copy_ok value = true → forallb copy_ok (take (sz - p) (drop p buf)) = true →
  (std_copy_backward p sz (sz + 1) >> store_copy p value) buf =
    Returns () (take p buf ++ value :: take (sz - p) (drop p buf)
                  ++ drop (S sz) buf).
Proof.
  intros Hp Hb Hv Hall. rewrite Nat.add_1_r.
  erewrite bind_returns by (apply std_copy_backward_returns; (done || lia)).
  rewrite store_copy_returns; [|rewrite !length_app, length_take; lia|done].
  assert (length (take p buf) = p) as Hlen by (rewrite length_take; lia).
  assert (is_Some (buf !! p)) as [y Hy] by (apply lookup_lt_is_Some_2; lia).
  rewrite (take_S_r _ _ _ Hy), <- app_assoc.
  rewrite insert_app_r_alt by lia.
  by rewrite Hlen, Nat.sub_diag.
Qed.

Lemma on_items_returns {A} (m : St (list T) A) v (a : A) buf :
  m (items_ v) = Returns a buf →
  on_items m v = Returns a {| items_ := buf; size_ := size_ v; capacity_ := capacity_ v |}.
Proof. intros E. unfold on_items. by rewrite E. Qed.

Lemma on_local_returns {X A} (m : St (list T) A) buf (a : A) buf' (s : X) :
  m buf = Returns a buf' → on_local m buf s = Returns (a, buf') s.
Proof. intros E. unfold on_local. by rewrite E. Qed.

Lemma elements_take v (p : nat) :
  p ≤ N.to_nat (size_ v) → take p (elements v) = take p (items_ v).
Proof. intros Hp. unfold elements. rewrite take_take. f_equal. lia. Qed.

Lemma elements_drop v (p : nat) :
  p ≤ N.to_nat (size_ v) →
  drop p (elements v) = take (N.to_nat (size_ v) - p) (drop p (items_ v)).
Proof.
  intros Hp. unfold elements. rewrite take_drop_commute. do 2 f_equal. lia.
Qed.

(** Insert, whichever branch it takes. *)
Lemma Insert_returns v (pos : N) value :
  consistent v = true → (pos ≤ size_ v)%N →
  copy_ok value = true → forallb copy_ok (elements v) = true →
  (capacity_ v = size_ v →
   can_allocate (N.max (capacity_ v * 2) (size_ v + 1)) = true) →
  ∃ v', Insert pos value v = Returns pos v'
        ∧ elements v' = take (N.to_nat pos) (elements v)
                        ++ value :: drop (N.to_nat pos) (elements v)
        ∧ size_ v' = (size_ v + 1)%N
        ∧ consistent v' = true.
Proof.
  intros Hv Hpos Hval Hall Ha. pose proof Hv as (Hs & Hl & Hm)%consistent_spec.
  rewrite elements_take, elements_drop by lia.
  set (p := N.to_nat pos). set (sz := N.to_nat (size_ v)).
  assert (p ≤ sz) as Hp by lia.
  destruct (forallb_take_drop _ _ _ _ Hp Hall) as [Hpre Hsuf].
  unfold Insert. rewrite bind_get.
  rewrite bind_assert_true by by apply N.leb_le.
  rewrite !wrap_small by lia.
  destruct (N.leb_spec (size_ v + 1) (capacity_ v)) as [Hroom | Hfull].
  - erewrite bind_returns; cycle 1.
    { apply on_items_returns, shift_and_write; (done || lia). }
    eexists. split; [reflexivity|]. cbn [items_ size_ capacity_]. fold p sz.
    split_and!; [| done |].
    + eapply (elements_app _ (_ ++ _ :: _)); [by rewrite <- app_assoc|].
      cbn [size_]. rewrite length_app, length_take. simpl.
      rewrite length_take, length_drop. lia.
    + apply consistent_spec. cbn [items_ size_ capacity_].
      rewrite length_app, length_take. simpl.
      rewrite length_app, length_take, !length_drop. lia.
  - assert (capacity_ v = size_ v) as Hcs by lia. specialize (Ha Hcs).
    pose proof (can_allocate_bound _ Ha) as Hb.
    set (g := N.max (capacity_ v * 2) (size_ v + 1)) in *.
    erewrite bind_returns; cycle 1.
    { erewrite bind_returns by reflexivity. rewrite bind_get.
      cbn [items_ size_ capacity_].
      erewrite bind_returns by by apply ArrayPtr_new_returns.
      erewrite bind_returns; cycle 1.
      { apply on_local_returns, insert_into_fresh; try (done || lia).
        rewrite length_fresh_buffer. lia. }
      reflexivity. }
    eexists. split; [reflexivity|]. cbn [items_ size_ capacity_]. fold p sz.
    split_and!; [| done |].
    + eapply (elements_app _ (_ ++ _ :: _)); [by rewrite <- app_assoc|].
      cbn [size_]. rewrite length_app, length_take. simpl.
      rewrite length_take, length_drop. lia.
    + apply consistent_spec. cbn [items_ size_ capacity_].
      rewrite length_app, length_take. simpl.
      rewrite length_app, length_take, !length_drop, length_fresh_buffer. lia.
Qed.

(** The overload taking [Type&&]: the same steps by moves. *)
Lemma shift_and_write_rv buf (p sz : nat) value :
  p ≤ sz → S sz ≤ length buf →
  (std_move_backward p sz (sz + 1) >> store p value) buf =
    Returns () (take p buf ++ value :: take (sz - p) (drop p buf)
                  ++ drop (S sz) buf).
Proof.
  intros Hp Hb. rewrite Nat.add_1_r.
  destruct (std_move_backward_returns p sz buf) as (buf' & Hmove & Hlen & Htake & Hdrop);
    [done | done |].
  erewrite bind_returns by exact Hmove.
  rewrite store_returns by lia.
  rewrite insert_take_drop by lia. by rewrite Htake, Hdrop.
Qed.

Lemma insert_into_fresh_rv items dst (p sz : nat) value :
  p ≤ sz → sz ≤ length items → S sz ≤ length dst →
  ∃ old,
    (let* old_items := std_move items 0 p 0 in
     store p value >>
     std_move old_items p sz (p + 1)) dst =
      Returns old (take p items ++ value :: take (sz - p) (drop p items)
                     ++ drop (S sz) dst).
Proof.
  intros Hp Hsz Hd.
  assert (length (take p items) = p) as Hlen by (rewrite length_take; lia).
  erewrite bind_returns; cycle 1.
  { apply std_move_returns; lia. }
  rewrite Nat.sub_0_r, !drop_0, !take_0. simpl.
  set (old1 := (moved_from <$> take p items) ++ drop p items).
  assert (drop p old1 = drop p items) as Hold1.
  { subst old1. apply drop_app_length'. by rewrite length_fmap. }
  assert (length old1 = length items) as Hlen1.
  { subst old1. rewrite length_app, length_fmap, length_drop. lia. }
  assert (<[p:=value]> (take p items ++ drop p dst)
          = (take p items ++ [value]) ++ drop (S p) dst) as Hwrite.
  { rewrite insert_take_drop by (rewrite length_app, length_drop; lia).
    rewrite take_app_length' by done.
    rewrite drop_app_ge, drop_drop, Hlen by lia.
    replace (p + (S p - p)) with (S p) by lia. by rewrite <- app_assoc. }
  erewrite bind_returns; cycle 1.
  { apply store_returns. rewrite length_app, length_drop. lia. }
  rewrite Hwrite.
  rewrite std_move_returns; try lia; cycle 1.
  { rewrite !length_app, length_drop. simpl. lia. }
  eexists. f_equal. rewrite Hold1.
  rewrite take_app_length' by (rewrite length_app; simpl; lia).
  rewrite drop_app_ge, drop_drop by (rewrite length_app; simpl; lia).
  rewrite length_app, Hlen. simpl.
  replace (S (p + (p + 1 + (sz - p) - (p + 1)))) with (S sz) by lia.
  by rewrite <- app_assoc.
Qed.

Lemma Insert_rv_returns v (pos : N) value :
  consistent v = true → (pos ≤ size_ v)%N →
  (capacity_ v = size_ v →
   can_allocate (N.max (capacity_ v * 2) (size_ v + 1)) = true) →
  ∃ v', Insert_rv pos value v = Returns pos v'
        ∧ elements v' = take (N.to_nat pos) (elements v)
                        ++ value :: drop (N.to_nat pos) (elements v)
        ∧ size_ v' = (size_ v + 1)%N
        ∧ consistent v' = true.
Proof.
  intros Hv Hpos Ha. pose proof Hv as (Hs & Hl & Hm)%consistent_spec.
  rewrite elements_take, elements_drop by lia.
  set (p := N.to_nat pos). set (sz := N.to_nat (size_ v)).
  assert (p ≤ sz) as Hp by lia.
  unfold Insert_rv. rewrite bind_get.
  rewrite bind_assert_true by by apply N.leb_le.
  rewrite !wrap_small by lia.
  destruct (N.leb_spec (size_ v + 1) (capacity_ v)) as [Hroom | Hfull].
  - erewrite bind_returns; cycle 1.
    { apply on_items_returns, shift_and_write_rv; lia. }
    eexists. split; [reflexivity|]. cbn [items_ size_ capacity_]. fold p sz.
    split_and!; [| done |].
    + eapply (elements_app _ (_ ++ _ :: _)); [by rewrite <- app_assoc|].
      cbn [size_]. rewrite length_app, length_take. simpl.
      rewrite length_take, length_drop. lia.
    + apply consistent_spec. cbn [items_ size_ capacity_].
      rewrite length_app, length_take. simpl.
      rewrite length_app, length_take, !length_drop. lia.
  - assert (capacity_ v = size_ v) as Hcs by lia. specialize (Ha Hcs).
    pose proof (can_allocate_bound _ Ha) as Hb.
    set (g := N.max (capacity_ v * 2) (size_ v + 1)) in *.
    destruct (insert_into_fresh_rv (items_ v) (fresh_buffer g) p sz value)
      as [old Hfresh]; [lia | lia | rewrite length_fresh_buffer; lia |].
    erewrite bind_returns; cycle 1.
    { erewrite bind_returns by reflexivity. rewrite bind_get.
      cbn [items_ size_ capacity_].
      erewrite bind_returns by by apply ArrayPtr_new_returns.
      erewrite bind_returns; cycle 1.
      { apply on_local_returns. exact Hfresh. }
      reflexivity. }
    eexists. split; [reflexivity|]. cbn [items_ size_ capacity_]. fold p sz.
    split_and!; [| done |].
    + eapply (elements_app _ (_ ++ _ :: _)); [by rewrite <- app_assoc|].
      cbn [size_]. rewrite length_app, length_take. simpl.
      rewrite length_take, length_drop. lia.
    + apply consistent_spec. cbn [items_ size_ capacity_].
      rewrite length_app, length_take. simpl.
      rewrite length_app, length_take, !length_drop, length_fresh_buffer. lia.
Qed.

(** Erase shifts the tail one slot to the left and forgets the last slot. *)
Lemma Erase_returns v (pos : N) :
  consistent v = true → (pos < size_ v)%N →
  ∃ v', Erase pos v = Returns pos v'
        ∧ elements v' = take (N.to_nat pos) (elements v)
                        ++ drop (S (N.to_nat pos)) (elements v)
        ∧ size_ v' = (size_ v - 1)%N
        ∧ capacity_ v' = capacity_ v
        ∧ consistent v' = true.
Proof.
  intros Hv Hpos. pose proof Hv as (Hs & Hl & Hm)%consistent_spec.
  rewrite elements_take, elements_drop by lia.
  destruct (std_move_within_returns (N.to_nat pos) (N.to_nat (size_ v)) (items_ v))
    as (buf' & Hmove & Hlen & Htake & _); [lia | lia |].
  unfold Erase. rewrite bind_get.
  rewrite bind_assert_true by by apply N.ltb_lt.
  erewrite bind_returns; cycle 1.
  { apply on_items_returns. rewrite Nat.add_1_r. exact Hmove. }
  unfold decrement. destruct (N.eqb_spec (size_ v) 0); [lia|].
  eexists. split; [reflexivity|]. cbn [items_ size_ capacity_].
  split_and!; [| done | done |].
  - unfold elements. cbn [items_ size_].
    replace (N.to_nat (size_ v - 1)) with (N.to_nat (size_ v) - 1) by lia.
    done.
  - apply consistent_spec. cbn [items_ size_ capacity_]. lia.
Qed.

End InsertErase.

(** The initializer-list constructor builds the container {1,2,3} with
    capacity 3. *)
Lemma SimpleVector_init_one_two_three (H : Heap Z) :
  heap_grants 3 = true →
  SimpleVector_init [1; 2; 3]%Z () = Returns one_two_three ().
Proof.
  intros Hg. unfold SimpleVector_init.
  change (N.of_nat (length [1; 2; 3]%Z)) with 3%N.
  erewrite bind_returns; cycle 1.
  { apply ArrayPtr_new_returns. unfold can_allocate. by rewrite Hg. }
  reflexivity.
Qed.

(** * The claims *)

(** C1: the failing input.  A full container of three ints whose next
    allocation fails: PushBack and Insert, in both overloads, throw bad_alloc
    and leave the capacity at 6 over the buffer of 3 slots, which is not a
    consistent object; the next PushBack then takes the no-growth branch and
    writes slot 3 of that buffer, outside the allocation. *)
Theorem failed_growth_leaves_capacity_ahead :
  let broken := {| items_ := [1; 2; 3]%Z; size_ := 3; capacity_ := 6 |} in
  PushBack (H0 := exhausted) 4%Z one_two_three = Throws bad_alloc broken
  ∧ PushBack_rv (H0 := exhausted) 4%Z one_two_three = Throws bad_alloc broken
  ∧ Insert (H0 := exhausted) 1 9%Z one_two_three = Throws bad_alloc broken
  ∧ Insert_rv (H0 := exhausted) 1 9%Z one_two_three = Throws bad_alloc broken
  ∧ consistent one_two_three = true
  ∧ consistent broken = false
  ∧ PushBack (H0 := plentiful) 4%Z broken = Undefined.
Proof. split_and!; reflexivity. Qed.

(** C2 (amended): under any call, and any sequence of calls, among Reserve,
    Resize, Clear, PushBack, Insert, PopBack and Erase, the capacity the
    object is left with, whether the call returns or throws, is at least
    the capacity it had before. *)
Theorem capacity_never_decreases :
  (∀ T (E : Element T) (H : Heap T) (c : mutation T) (v s' : SimpleVector T),
     keeps_own_buffer c = true →
     final_state (perform c v) = Some s' →
     (capacity_ v ≤ capacity_ s')%N)
  ∧ (∀ T (E : Element T) (H : Heap T) (cs : list (mutation T)) (v s' : SimpleVector T),
       forallb keeps_own_buffer cs = true →
       final_state (perform_all cs v) = Some s' →
       (capacity_ v ≤ capacity_ s')%N).
Proof.
  split.
  - intros T E H c v s' Hc. by apply kc_perform.
  - intros T E H cs v s' Hcs. by apply kc_perform_all.
Qed.

Lemma capacity_never_decreases_witness :
  (capacity_ one_two_three
   ≤ capacity_ {| items_ := [2; 3; 4; 4; -1; -1]%Z; size_ := 0; capacity_ := 6 |})%N.
Proof.
  apply (proj2 capacity_never_decreases Z int_element plentiful
           [call_PushBack 4%Z; call_Erase 0%N; call_Reserve 5%N; call_PopBack; call_Clear]
           one_two_three);
    reflexivity.
Defined.

(** C2 as stated fails.  Copy assignment adopts a copy whose capacity is
    the size of the source, and swap adopts the capacity of the other
    object: either can lower the capacity of a consistent container. *)
Lemma copy_assignment_shrinks_capacity :
  perform (H0 := plentiful)
          (call_assign {| items_ := [7]%Z; size_ := 1; capacity_ := 1 |})
          one_two_three
    = Returns () {| items_ := [7]%Z; size_ := 1; capacity_ := 1 |}
  ∧ perform (H0 := plentiful) (call_swap SimpleVector_default) one_two_three
    = Returns () SimpleVector_default
  ∧ ¬ (∀ (c : mutation Z) (v s' : SimpleVector Z),
         consistent v = true →
         final_state (perform (H0 := plentiful) c v) = Some s' →
         (capacity_ v ≤ capacity_ s')%N).
Proof.
  split_and!; [reflexivity | reflexivity |].
  intros Hall.
  specialize (Hall (call_assign {| items_ := [7]%Z; size_ := 1; capacity_ := 1 |})
                   one_two_three _ eq_refl eq_refl).
  vm_compute in Hall. by apply Hall.
Qed.

(** ** Resize, Reserve, PushBack and PopBack *)

(** C3: for a container of size s and capacity c and every n > c for which
    the allocation succeeds, Resize(n) ends with capacity max(c * 2, n) and
    size n, keeps the first s elements in order and makes every element at
    an index in [s, n) the default value of the element type. *)
Theorem Resize_beyond_capacity :
  ∀ T (E : Element T) (H : Heap T) (v : SimpleVector T) (n : N),
    consistent v = true →
    (capacity_ v < n)%N →
    can_allocate (N.max (capacity_ v * 2) n) = true →
    copy_ok value_init = true →
    ∃ v', Resize n v = Returns () v'
          ∧ capacity_ v' = N.max (capacity_ v * 2) n
          ∧ size_ v' = n
          ∧ take (N.to_nat (size_ v)) (elements v') = elements v
          ∧ (∀ i, N.to_nat (size_ v) ≤ i < N.to_nat n →
                  elements v' !! i = Some value_init)
          ∧ consistent v' = true.
Proof.
  intros T E H v n Hv Hn Ha Hc.
  pose proof Hv as (Hs & Hl & Hm)%consistent_spec.
  pose proof (length_elements _ Hv) as Hle.
  pose proof (can_allocate_bound _ Ha) as Hb.
  eexists. split; [by apply Resize_grows|]. cbn [items_ size_ capacity_].
  set (g := N.max (capacity_ v * 2) n) in *.
  set (pad := replicate (N.to_nat n - N.to_nat (size_ v)) value_init).
  assert (elements {| items_ := elements v ++ pad ++ drop (N.to_nat n) (fresh_buffer g);
                      size_ := n; capacity_ := g |} = elements v ++ pad) as ->.
  { rewrite app_assoc. eapply elements_app; [done|]. cbn [size_].
    subst pad. rewrite length_app, length_replicate. lia. }
  split_and!; [done | done | | |].
  - by rewrite take_app_length'.
  - intros i Hi. rewrite lookup_app_r by lia.
    apply lookup_replicate_2. lia.
  - apply consistent_spec. cbn [items_ size_ capacity_]. subst pad.
    rewrite !length_app, length_replicate, length_drop, length_fresh_buffer. lia.
Qed.

Lemma Resize_beyond_capacity_witness :
  ∃ v', Resize (H0 := plentiful) 7 one_two_three = Returns () v'
        ∧ capacity_ v' = 7%N
        ∧ size_ v' = 7%N
        ∧ take 3 (elements v') = [1; 2; 3]%Z
        ∧ (∀ i, 3 ≤ i < 7 → elements v' !! i = Some 0%Z)
        ∧ consistent v' = true.
Proof.
  apply (Resize_beyond_capacity Z int_element plentiful one_two_three 7);
    [reflexivity | reflexivity | reflexivity | reflexivity].
Defined.

(** C5: Reserve(n) with n > capacity, when the allocation succeeds, makes
    the capacity exactly n and leaves the size and the elements as they
    were; Reserve(n) with n ≤ capacity changes nothing.  On a
    default-constructed container of int, Reserve(10) gives size 0 and
    capacity 10, and PushBack(5) after it, by either overload, gives size 1
    and still capacity 10, in the same buffer. *)
Theorem Reserve_contract :
  (∀ T (E : Element T) (H : Heap T) (v : SimpleVector T) (n : N),
     consistent v = true → (capacity_ v < n)%N → can_allocate n = true →
     ∃ v', Reserve n v = Returns () v'
           ∧ capacity_ v' = n ∧ size_ v' = size_ v ∧ elements v' = elements v
           ∧ consistent v' = true)
  ∧ (∀ T (E : Element T) (H : Heap T) (v : SimpleVector T) (n : N),
       (n ≤ capacity_ v)%N → Reserve n v = Returns () v)
  ∧ (∀ H : Heap Z, heap_grants 10 = true →
       ∃ v1 v2, Reserve 10 SimpleVector_default = Returns () v1
                ∧ GetSize v1 = 0%N ∧ GetCapacity v1 = 10%N
                ∧ PushBack 5%Z v1 = Returns () v2
                ∧ PushBack_rv 5%Z v1 = Returns () v2
                ∧ GetSize v2 = 1%N ∧ GetCapacity v2 = 10%N
                ∧ items_ v2 = <[0:=5%Z]> (items_ v1)
                ∧ elements v2 = [5%Z]).
Proof.
  split_and!.
  - intros T E H v n Hv Hn Ha. eexists. split; [by apply Reserve_grows|].
    pose proof Hv as (Hs & Hl & Hm)%consistent_spec.
    pose proof (length_elements _ Hv) as Hle.
    pose proof (can_allocate_bound _ Ha) as Hb.
    split_and!; [done | done | |].
    + by eapply (elements_app _ (elements v)).
    + apply consistent_spec. cbn [items_ size_ capacity_].
      rewrite length_app, length_drop, length_fresh_buffer. lia.
  - intros T E H v n Hn. by apply Reserve_enough.
  - intros H Hg.
    assert (can_allocate 10 = true) as Ha by (unfold can_allocate; by rewrite Hg).
    do 2 eexists. split; [by apply Reserve_grows|]. cbn [items_ size_ capacity_].
    split_and!; [done | done | | | | | |].
    + by apply PushBack_in_place.
    + by apply PushBack_rv_in_place.
    + done.
    + done.
    + done.
    + reflexivity.
Qed.

Lemma Reserve_contract_witness :
  ∃ v', Reserve (H0 := plentiful) 8 one_two_three = Returns () v'
        ∧ capacity_ v' = 8%N ∧ size_ v' = 3%N ∧ elements v' = [1; 2; 3]%Z
        ∧ consistent v' = true.
Proof.
  apply (proj1 Reserve_contract Z int_element plentiful one_two_three 8%N);
    [reflexivity | reflexivity | reflexivity].
Defined.

(** C6: PushBack(x) followed by PopBack() gives back the size and the
    elements the container had, for the overload that copies x and for the
    one that moves it; the capacity may have grown. *)
Theorem PushBack_PopBack_restores :
  ∀ T (E : Element T) (H : Heap T) (v : SimpleVector T) (x : T),
    consistent v = true →
    (capacity_ v = size_ v →
     can_allocate (N.max (capacity_ v * 2) (size_ v + 1)) = true) →
    (copy_ok x = true →
     ∃ v1 v2, PushBack x v = Returns () v1
              ∧ elements v1 = elements v ++ [x]
              ∧ PopBack v1 = Returns () v2
              ∧ size_ v2 = size_ v
              ∧ elements v2 = elements v)
    ∧ (∃ v1 v2, PushBack_rv x v = Returns () v1
                ∧ elements v1 = elements v ++ [x]
                ∧ PopBack v1 = Returns () v2
                ∧ size_ v2 = size_ v
                ∧ elements v2 = elements v).
Proof.
  intros T E H v x Hv Ha. split.
  - intros Hc.
    destruct (PushBack_returns v x Hv Hc Ha) as (items' & c & Hpush & Htake).
    destruct (pushed_then_popped v x items' c Hv Htake) as (Hel & v2 & Hpop & Hsz & Hel2).
    eauto 10.
  - destruct (PushBack_rv_returns v x Hv Ha) as (items' & c & Hpush & Htake).
    destruct (pushed_then_popped v x items' c Hv Htake) as (Hel & v2 & Hpop & Hsz & Hel2).
    eauto 10.
Qed.

Lemma PushBack_PopBack_restores_witness :
  (copy_ok 4%Z = true →
   ∃ v1 v2, PushBack (H0 := plentiful) 4%Z one_two_three = Returns () v1
            ∧ elements v1 = [1; 2; 3; 4]%Z
            ∧ PopBack v1 = Returns () v2
            ∧ size_ v2 = 3%N
            ∧ elements v2 = [1; 2; 3]%Z)
  ∧ (∃ v1 v2, PushBack_rv (H0 := plentiful) 4%Z one_two_three = Returns () v1
              ∧ elements v1 = [1; 2; 3; 4]%Z
              ∧ PopBack v1 = Returns () v2
              ∧ size_ v2 = 3%N
              ∧ elements v2 = [1; 2; 3]%Z).
Proof.
  apply (PushBack_PopBack_restores Z int_element plentiful one_two_three 4%Z);
    [reflexivity | intros _; reflexivity].
Defined.

(** ** Element access *)

(** C8: At(index) throws out_of_range exactly when index ≥ size, and for
    index < size it returns the element at that index and throws nothing;
    so At(3) on a container of size 3 throws out_of_range. *)
Theorem At_checks_bounds :
  ∀ T (v : SimpleVector T) (index : N),
    consistent v = true →
    ((∃ s, At index v = Throws out_of_range s) ↔ (size_ v ≤ index)%N)
    ∧ ((index < size_ v)%N →
       ∃ x, elements v !! N.to_nat index = Some x ∧ At index v = Returns x v)
    ∧ (size_ v = 3%N → At 3 v = Throws out_of_range v).
Proof.
  intros T v index Hv. pose proof Hv as (Hs & Hl & Hm)%consistent_spec.
  assert ((index < size_ v)%N →
          ∃ x, elements v !! N.to_nat index = Some x ∧ At index v = Returns x v)
    as Hin.
  { intros Hi.
    destruct (lookup_lt_is_Some_2 (items_ v) (N.to_nat index)) as [x Hx]; [lia|].
    exists x. split; [|by apply At_in_range].
    rewrite lookup_elements by lia. done. }
  split_and!.
  - split.
    + intros [s Hthrow]. destruct (N.le_gt_cases (size_ v) index) as [|Hi]; [done|].
      destruct (Hin Hi) as (x & _ & Hret). congruence.
    + intros Hi. exists v. by apply At_beyond.
  - done.
  - intros H3. apply At_beyond. lia.
Qed.

Lemma At_checks_bounds_witness :
  ((∃ s, At 3 one_two_three = Throws out_of_range s) ↔ (3 ≤ 3)%N)
  ∧ ((3 < 3)%N →
     ∃ x, elements one_two_three !! 3 = Some x ∧ At 3 one_two_three = Returns x one_two_three)
  ∧ (3%N = 3%N → At 3 one_two_three = Throws out_of_range one_two_three).
Proof.
  apply (At_checks_bounds Z one_two_three 3%N). reflexivity.
Defined.

(** C10: for an index below the size, At(index) and operator[](index) end
    the same way: both return the element at that index. *)
Theorem At_agrees_with_subscript :
  ∀ T (v : SimpleVector T) (index : N),
    consistent v = true →
    (index < size_ v)%N →
    ∃ x, elements v !! N.to_nat index = Some x
         ∧ At index v = Returns x v
         ∧ subscript index v = Returns x v.
Proof.
  intros T v index Hv Hi. pose proof Hv as (Hs & Hl & Hm)%consistent_spec.
  destruct (lookup_lt_is_Some_2 (items_ v) (N.to_nat index)) as [x Hx]; [lia|].
  exists x. split_and!.
  - rewrite lookup_elements by lia. done.
  - by apply At_in_range.
  - by apply subscript_in_range.
Qed.

Lemma At_agrees_with_subscript_witness :
  ∃ x, elements one_two_three !! 1 = Some x
       ∧ At 1 one_two_three = Returns x one_two_three
       ∧ subscript 1 one_two_three = Returns x one_two_three.
Proof.
  apply (At_agrees_with_subscript Z one_two_three 1%N); reflexivity.
Defined.

(** ** Copy assignment *)

(** C9: assigning a container to itself returns at once and changes no
    object: the identity test skips the copy, so the size, the capacity and
    the elements of the container stay as they were. *)
Theorem self_assignment_changes_nothing :
  ∀ T (E : Element T) (H : Heap T) (σ : gmap nat (SimpleVector T)) (this : nat),
    copy_assign this this σ = Returns () σ.
Proof.
  intros T E H σ this. unfold copy_assign. by rewrite Nat.eqb_refl.
Qed.

(** Without the identity test the body of the assignment would not be a
    no-op: run on a copy of the object itself it trims the capacity. *)
Lemma assignment_body_trims_capacity :
  assign_other (H0 := plentiful)
               {| items_ := [1; 2; 3; 0]%Z; size_ := 3; capacity_ := 4 |}
               {| items_ := [1; 2; 3; 0]%Z; size_ := 3; capacity_ := 4 |}
    = Returns () one_two_three.
Proof. reflexivity. Qed.

(** C7: the failing input.  {1,3} is not less than {1,2}, so {1,3} >= {1,2}
    should hold, and the operator answers false; {1,2} is less than {1,3},
    so {1,2} >= {1,3} should not hold, and the operator answers true. *)
Theorem operator_ge_answers_as_le :
  operator_lt {| items_ := [1; 3]%Z; size_ := 2; capacity_ := 2 |}
              {| items_ := [1; 2]%Z; size_ := 2; capacity_ := 2 |} = false
  ∧ operator_ge {| items_ := [1; 3]%Z; size_ := 2; capacity_ := 2 |}
                {| items_ := [1; 2]%Z; size_ := 2; capacity_ := 2 |} = false
  ∧ operator_lt {| items_ := [1; 2]%Z; size_ := 2; capacity_ := 2 |}
                {| items_ := [1; 3]%Z; size_ := 2; capacity_ := 2 |} = true
  ∧ operator_ge {| items_ := [1; 2]%Z; size_ := 2; capacity_ := 2 |}
                {| items_ := [1; 3]%Z; size_ := 2; capacity_ := 2 |} = true.
Proof. split_and!; reflexivity. Qed.

(** C4: from a container holding {1,2,3}, whatever its capacity, Insert at
    index 1 of the value 9, by either overload, returns that position and
    gives {1,9,2,3} of size 4, and Erase at index 0 of the result gives
    {9,2,3} of size 3. *)
Theorem insert_then_erase_scenario :
  ∀ (H : Heap Z) (v : SimpleVector Z),
    consistent v = true →
    elements v = [1; 2; 3]%Z →
    (capacity_ v = 3%N → can_allocate 6 = true) →
    (∃ v1 v2,
       Insert 1 9%Z v = Returns 1%N v1
       ∧ elements v1 = [1; 9; 2; 3]%Z ∧ GetSize v1 = 4%N
       ∧ Erase 0 v1 = Returns 0%N v2
       ∧ elements v2 = [9; 2; 3]%Z ∧ GetSize v2 = 3%N)
    ∧ (∃ v1 v2,
         Insert_rv 1 9%Z v = Returns 1%N v1
         ∧ elements v1 = [1; 9; 2; 3]%Z ∧ GetSize v1 = 4%N
         ∧ Erase 0 v1 = Returns 0%N v2
         ∧ elements v2 = [9; 2; 3]%Z ∧ GetSize v2 = 3%N).
Proof.
  intros H v Hv Hel Ha.
  assert (size_ v = 3%N) as Hsz.
  { pose proof (length_elements _ Hv) as Hlen. rewrite Hel in Hlen. simpl in Hlen. lia. }
  assert (capacity_ v = size_ v →
          can_allocate (N.max (capacity_ v * 2) (size_ v + 1)) = true) as Ha'.
  { intros Hc. rewrite Hc, Hsz. apply Ha. congruence. }
  split.
  - destruct (Insert_returns v 1 9%Z) as (v1 & Hins & Hel1 & Hsz1 & Hv1);
      [done | lia | done | by rewrite Hel | done |].
    destruct (Erase_returns v1 0) as (v2 & Hers & Hel2 & Hsz2 & _ & _); [done | lia |].
    exists v1, v2. rewrite Hel in Hel1. rewrite Hel1 in Hel2.
    unfold GetSize. rewrite Hsz1, Hsz2, Hsz1, Hsz. done.
  - destruct (Insert_rv_returns v 1 9%Z) as (v1 & Hins & Hel1 & Hsz1 & Hv1);
      [done | lia | done |].
    destruct (Erase_returns v1 0) as (v2 & Hers & Hel2 & Hsz2 & _ & _); [done | lia |].
    exists v1, v2. rewrite Hel in Hel1. rewrite Hel1 in Hel2.
    unfold GetSize. rewrite Hsz1, Hsz2, Hsz1, Hsz. done.
Qed.

Lemma insert_then_erase_scenario_witness :
  (∃ v1 v2,
     Insert (H0 := plentiful) 1 9%Z one_two_three = Returns 1%N v1
     ∧ elements v1 = [1; 9; 2; 3]%Z ∧ GetSize v1 = 4%N
     ∧ Erase 0 v1 = Returns 0%N v2
     ∧ elements v2 = [9; 2; 3]%Z ∧ GetSize v2 = 3%N)
  ∧ (∃ v1 v2,
       Insert_rv (H0 := plentiful) 1 9%Z one_two_three = Returns 1%N v1
       ∧ elements v1 = [1; 9; 2; 3]%Z ∧ GetSize v1 = 4%N
       ∧ Erase 0 v1 = Returns 0%N v2
       ∧ elements v2 = [9; 2; 3]%Z ∧ GetSize v2 = 3%N).
Proof.
  apply (insert_then_erase_scenario plentiful one_two_three);
    [reflexivity | reflexivity | intros _; reflexivity].
Defined.

(** * Further properties of the class *)

(** ** Insert and Erase in general *)

Section AfterInsert.
Context {T : Type} `{Element T}.
Implicit Types (v : SimpleVector T) (value : T).



Lemma erase_inserted (l : list T) (p : nat) value :
  p ≤ length l →
  take p (take p l ++ value :: drop p l) ++ drop (S p) (take p l ++ value :: drop p l) = l.
Proof.
  intros Hp.
  assert (length (take p l) = p) as Hlen by (rewrite length_take; lia).
  rewrite take_app_length' by done.
  rewrite drop_app_ge by lia. rewrite Hlen.
  replace (S p - p) with 1 by lia. simpl. by rewrite drop_0, take_drop.
Qed.

End AfterInsert.



(** X2: Erase at a position below the size never throws and never
    allocates: it returns that position, removes exactly the element there,
    keeps the order of the others and leaves the capacity as it was. *)
Theorem Erase_removes_position :
  ∀ T (E : Element T) (v : SimpleVector T) (pos : N),
    consistent v = true →
    (pos < size_ v)%N →
    ∃ v', Erase pos v = Returns pos v'
          ∧ elements v' = take (N.to_nat pos) (elements v)
                          ++ drop (S (N.to_nat pos)) (elements v)
          ∧ GetSize v' = (size_ v - 1)%N
          ∧ GetCapacity v' = capacity_ v
          ∧ consistent v' = true.
Proof.
  intros T E v pos Hv Hpos. by apply Erase_returns.
Qed.

Lemma Erase_removes_position_witness :
  ∃ v', Erase 1 one_two_three = Returns 1%N v'
        ∧ elements v' = [1; 3]%Z
        ∧ GetSize v' = 2%N
        ∧ GetCapacity v' = 3%N
        ∧ consistent v' = true.
Proof.
  apply (Erase_removes_position Z int_element one_two_three 1%N);
    [reflexivity | reflexivity].
Defined.

(** X3: Erase at the position an Insert returned undoes the Insert: the
    elements and the size are those before the pair of calls. *)
Theorem Erase_undoes_Insert :
  ∀ T (E : Element T) (H : Heap T) (v : SimpleVector T) (pos : N) (value : T),
    consistent v = true →
    (pos ≤ size_ v)%N →
    (capacity_ v = size_ v →
     can_allocate (N.max (capacity_ v * 2) (size_ v + 1)) = true) →
    (copy_ok value = true → forallb copy_ok (elements v) = true →
     ∃ pos' v1 v2, Insert pos value v = Returns pos' v1
                   ∧ Erase pos' v1 = Returns pos' v2
                   ∧ elements v2 = elements v ∧ GetSize v2 = size_ v)
    ∧ (∃ pos' v1 v2, Insert_rv pos value v = Returns pos' v1
                     ∧ Erase pos' v1 = Returns pos' v2
                     ∧ elements v2 = elements v ∧ GetSize v2 = size_ v).
Proof.
  intros T E H v pos value Hv Hpos Ha.
  pose proof (length_elements _ Hv) as Hle.
  split.
  - intros Hc Hall.
    destruct (Insert_returns v pos value Hv Hpos Hc Hall Ha) as (v1 & Hins & Hel & Hsz & Hv1).
    destruct (Erase_returns v1 pos Hv1) as (v2 & Hers & Hel2 & Hsz2 & _); [lia|].
    exists pos, v1, v2. split_and!; [done | done | |].
    + rewrite Hel2, Hel. apply erase_inserted. lia.
    + unfold GetSize. lia.
  - destruct (Insert_rv_returns v pos value Hv Hpos Ha) as (v1 & Hins & Hel & Hsz & Hv1).
    destruct (Erase_returns v1 pos Hv1) as (v2 & Hers & Hel2 & Hsz2 & _); [lia|].
    exists pos, v1, v2. split_and!; [done | done | |].
    + rewrite Hel2, Hel. apply erase_inserted. lia.
    + unfold GetSize. lia.
Qed.

Lemma Erase_undoes_Insert_witness :
  (copy_ok 9%Z = true → forallb copy_ok (elements one_two_three) = true →
   ∃ pos' v1 v2, Insert (H0 := plentiful) 1 9%Z one_two_three = Returns pos' v1
                 ∧ Erase pos' v1 = Returns pos' v2
                 ∧ elements v2 = [1; 2; 3]%Z ∧ GetSize v2 = 3%N)
  ∧ (∃ pos' v1 v2, Insert_rv (H0 := plentiful) 1 9%Z one_two_three = Returns pos' v1
                   ∧ Erase pos' v1 = Returns pos' v2
                   ∧ elements v2 = [1; 2; 3]%Z ∧ GetSize v2 = 3%N).
Proof.
  apply (Erase_undoes_Insert Z int_element plentiful one_two_three 1%N 9%Z);
    [reflexivity | simpl; lia | intros _; reflexivity].
Defined.

(** ** Insert at the end *)

Section AtEnd.
Context {T : Type} `{Element T} `{Heap T}.
Implicit Types (v : SimpleVector T) (x : T).



End AtEnd.



(** ** Resize within the capacity *)

Section ResizeInPlace.
Context {T : Type} `{Element T} `{Heap T}.
Implicit Types (v : SimpleVector T).

Lemma Resize_truncates v (n : N) :
  consistent v = true → (n ≤ size_ v)%N →
  Resize n v = Returns () {| items_ := items_ v; size_ := n; capacity_ := capacity_ v |}.
Proof.
  intros (Hs & Hl & Hm)%consistent_spec Hn. unfold Resize. rewrite bind_get.
  destruct (N.ltb_spec (capacity_ v) n); [lia|].
  destruct (N.ltb_spec (size_ v) n); [lia|]. reflexivity.
Qed.

Lemma Resize_fills_in_place v (n : N) :
  consistent v = true → (size_ v < n)%N → (n ≤ capacity_ v)%N →
  copy_ok value_init = true →
  Resize n v =
    Returns () {| items_ := elements v
                            ++ replicate (N.to_nat n - N.to_nat (size_ v)) value_init
                            ++ drop (N.to_nat n) (items_ v);
                  size_ := n; capacity_ := capacity_ v |}.
Proof.
  intros (Hs & Hl & Hm)%consistent_spec Hlt Hn Hc. unfold Resize. rewrite bind_get.
  destruct (N.ltb_spec (capacity_ v) n); [lia|].
  destruct (N.ltb_spec (size_ v) n); [|lia].
  erewrite bind_returns; cycle 1.
  { apply on_items_returns, std_fill_returns; (done || lia). }
  reflexivity.
Qed.

End ResizeInPlace.

(** X5: Resize to a size within the capacity never allocates, whatever the
    heap: it keeps the capacity, sets the size, keeps the elements below
    the new size and gives the default value to the elements from the old
    size up to the new one. *)
Theorem Resize_within_capacity :
  ∀ T (E : Element T) (H : Heap T) (v : SimpleVector T) (n : N),
    consistent v = true →
    (n ≤ capacity_ v)%N →
    ((size_ v < n)%N → copy_ok value_init = true) →
    ∃ v', Resize n v = Returns () v'
          ∧ GetSize v' = n
          ∧ GetCapacity v' = capacity_ v
          ∧ elements v' = take (N.to_nat n) (elements v)
                          ++ replicate (N.to_nat n - N.to_nat (size_ v)) value_init
          ∧ consistent v' = true.
Proof.
  intros T E H v n Hv Hn Hc. pose proof Hv as (Hs & Hl & Hm)%consistent_spec.
  pose proof (length_elements _ Hv) as Hle.
  destruct (N.le_gt_cases n (size_ v)) as [Hle_n | Hgt].
  - eexists. split; [by apply Resize_truncates|].
    split_and!; [done | done | | apply consistent_spec; cbn [items_ size_ capacity_]; lia].
    replace (N.to_nat n - N.to_nat (size_ v)) with 0 by lia.
    rewrite app_nil_r. unfold elements. cbn [items_ size_].
    rewrite take_take. f_equal. lia.
  - eexists. split; [apply Resize_fills_in_place; auto; lia|].
    split_and!; [done | done | |].
    + rewrite (take_ge (elements v)) by lia.
      rewrite app_assoc. eapply elements_app; [reflexivity|].
      cbn [size_]. rewrite length_app, length_replicate. lia.
    + apply consistent_spec. cbn [items_ size_ capacity_].
      rewrite !length_app, length_replicate, length_drop. lia.
Qed.

Lemma Resize_within_capacity_witness :
  ∃ v', Resize (H0 := exhausted) 2 one_two_three = Returns () v'
        ∧ GetSize v' = 2%N
        ∧ GetCapacity v' = 3%N
        ∧ elements v' = [1; 2]%Z
        ∧ consistent v' = true.
Proof.
  apply (Resize_within_capacity Z int_element exhausted one_two_three 2%N);
    [reflexivity | simpl; lia | intros _; reflexivity].
Defined.

(** X6: shrinking twice is shrinking once: for m ≤ n ≤ size, Resize(n)
    followed by Resize(m) leaves the object Resize(m) alone leaves, whose
    elements are the first m elements of the container. *)
Theorem Resize_twice_is_Resize :
  ∀ T (E : Element T) (H : Heap T) (v : SimpleVector T) (n m : N),
    consistent v = true →
    (m ≤ n)%N → (n ≤ size_ v)%N →
    ∃ v', (Resize n >> Resize m) v = Returns () v'
          ∧ Resize m v = Returns () v'
          ∧ elements v' = take (N.to_nat m) (elements v).
Proof.
  intros T E H v n m Hv Hmn Hn. pose proof Hv as (Hs & Hl & Hm)%consistent_spec.
  exists {| items_ := items_ v; size_ := m; capacity_ := capacity_ v |}. split_and!.
  - erewrite bind_returns by by apply Resize_truncates.
    apply (Resize_truncates {| items_ := items_ v; size_ := n; capacity_ := capacity_ v |});
      [|cbn [size_]; lia].
    apply consistent_spec. cbn [items_ size_ capacity_]. lia.
  - apply Resize_truncates; [done | lia].
  - unfold elements. cbn [items_ size_]. rewrite take_take. f_equal. lia.
Qed.

Lemma Resize_twice_is_Resize_witness :
  ∃ v', (Resize (H0 := exhausted) 2 >> Resize (H0 := exhausted) 1) one_two_three
          = Returns () v'
        ∧ Resize (H0 := exhausted) 1 one_two_three = Returns () v'
        ∧ elements v' = [1]%Z.
Proof.
  apply (Resize_twice_is_Resize Z int_element exhausted one_two_three 2%N 1%N);
    [reflexivity | simpl; lia | simpl; lia].
Defined.

(** ** PushBack into spare capacity *)

Section SpareCapacity.
Context {T : Type} `{Element T} `{Heap T}.
Implicit Types (v : SimpleVector T).

Lemma push_all_in_place (xs : list T) : ∀ v,
  consistent v = true →
  (size_ v + N.of_nat (length xs) ≤ capacity_ v)%N →
  forallb copy_ok xs = true →
  ∃ v', perform_all (call_PushBack <$> xs) v = Returns () v'
        ∧ elements v' = elements v ++ xs
        ∧ capacity_ v' = capacity_ v
        ∧ size_ v' = (size_ v + N.of_nat (length xs))%N
        ∧ consistent v' = true.
Proof.
  induction xs as [|x xs IH]; intros v Hv Hfit Hall.
  - exists v. rewrite app_nil_r. simpl. split_and!; [done | done | done | lia | done].
  - rewrite length_cons in Hfit. simpl in Hall. rewrite fmap_cons. simpl.
    apply andb_prop in Hall as [Hx Hall].
    pose proof Hv as (Hs & Hl & Hm)%consistent_spec.
    set (v1 := {| items_ := <[N.to_nat (size_ v):=x]> (items_ v);
                  size_ := size_ v + 1; capacity_ := capacity_ v |}).
    assert (consistent v1 = true) as Hv1.
    { apply consistent_spec. unfold v1. cbn [items_ size_ capacity_].
      rewrite length_insert. lia. }
    assert (elements v1 = elements v ++ [x]) as Hel1.
    { unfold elements, v1. cbn [items_ size_].
      replace (N.to_nat (size_ v + 1)) with (S (N.to_nat (size_ v))) by lia.
      apply take_S_insert. lia. }
    destruct (IH v1 Hv1) as (v' & Hrun & Hel & Hcap & Hsz & Hv');
      [unfold v1; cbn [size_ capacity_]; lia | done |].
    exists v'. unfold v1 in Hcap, Hsz. cbn [size_ capacity_] in Hcap, Hsz.
    split_and!; [| | done | lia | done].
    + erewrite bind_returns by (apply PushBack_in_place; (done || lia)). exact Hrun.
    + by rewrite Hel, Hel1, <- app_assoc.
Qed.

End SpareCapacity.

(** X7: PushBack into spare capacity never reallocates: as long as the
    values pushed fit in the capacity, pushing them one after the other
    succeeds whatever the heap, appends them in order and leaves the
    capacity as it was. *)
Theorem PushBack_within_capacity :
  ∀ T (E : Element T) (H : Heap T) (v : SimpleVector T) (xs : list T),
    consistent v = true →
    (size_ v + N.of_nat (length xs) ≤ capacity_ v)%N →
    forallb copy_ok xs = true →
    ∃ v', perform_all (call_PushBack <$> xs) v = Returns () v'
          ∧ elements v' = elements v ++ xs
          ∧ GetCapacity v' = capacity_ v
          ∧ GetSize v' = (size_ v + N.of_nat (length xs))%N.
Proof.
  intros T E H v xs Hv Hfit Hall.
  destruct (push_all_in_place xs v Hv Hfit Hall) as (v' & ? & ? & ? & ? & _).
  by exists v'.
Qed.

Lemma PushBack_within_capacity_witness :
  ∃ v', perform_all (H0 := exhausted) (call_PushBack <$> [7; 8]%Z)
                    {| items_ := [1; 0; 0; 0]%Z; size_ := 1; capacity_ := 4 |}
          = Returns () v'
        ∧ elements v' = [1; 7; 8]%Z
        ∧ GetCapacity v' = 4%N
        ∧ GetSize v' = 3%N.
Proof.
  apply (PushBack_within_capacity Z int_element exhausted
           {| items_ := [1; 0; 0; 0]%Z; size_ := 1; capacity_ := 4 |} [7; 8]%Z);
    [reflexivity | simpl; lia | reflexivity].
Defined.

(** ** Constructors *)

Section Constructors.
Context {T : Type} `{Element T} `{Heap T} {X : Type}.
Implicit Types (t : X) (value : T).

Lemma SimpleVector_fill_returns (n : N) value t :
  can_allocate n = true → copy_ok value = true →
  SimpleVector_fill n value t =
    Returns {| items_ := replicate (N.to_nat n) value; size_ := n; capacity_ := n |} t.
Proof.
  intros Ha Hc. unfold SimpleVector_fill.
  erewrite bind_returns by by apply ArrayPtr_new_returns.
  erewrite bind_returns; cycle 1.
  { apply on_local_returns, std_fill_returns; [done | lia |].
    by rewrite length_fresh_buffer. }
  rewrite take_0, Nat.sub_0_r. simpl.
  rewrite (drop_ge (fresh_buffer _)) by (rewrite length_fresh_buffer; lia).
  by rewrite app_nil_r.
Qed.

Lemma SimpleVector_fill_throws (n : N) value t :
  can_allocate n = false → SimpleVector_fill n value t = Throws bad_alloc t.
Proof.
  intros Ha. unfold SimpleVector_fill.
  by erewrite bind_throws by by apply ArrayPtr_new_throws.
Qed.

Lemma SimpleVector_init_returns (init : list T) t :
  can_allocate (N.of_nat (length init)) = true → forallb copy_ok init = true →
  SimpleVector_init init t =
    Returns {| items_ := init; size_ := N.of_nat (length init);
               capacity_ := N.of_nat (length init) |} t.
Proof.
  intros Ha Hc. unfold SimpleVector_init.
  erewrite bind_returns by by apply ArrayPtr_new_returns.
  erewrite bind_returns; cycle 1.
  { apply on_local_returns, std_copy_returns; rewrite ?length_fresh_buffer; try lia.
    by rewrite Nat.sub_0_r, drop_0, firstn_all. }
  rewrite take_0, Nat.sub_0_r, drop_0, firstn_all. simpl.
  rewrite (drop_ge (fresh_buffer _)) by (rewrite length_fresh_buffer; lia).
  by rewrite app_nil_r.
Qed.

Lemma SimpleVector_copy_returns (other : SimpleVector T) t :
  N.to_nat (size_ other) ≤ length (items_ other) →
  can_allocate (size_ other) = true → forallb copy_ok (elements other) = true →
  SimpleVector_copy other t =
    Returns {| items_ := elements other; size_ := size_ other;
               capacity_ := size_ other |} t.
Proof.
  intros Hl Ha Hc. unfold SimpleVector_copy.
  erewrite bind_returns by by apply ArrayPtr_new_returns.
  erewrite bind_returns; cycle 1.
  { apply on_local_returns, std_copy_returns; rewrite ?length_fresh_buffer; try lia.
    by rewrite Nat.sub_0_r, drop_0. }
  rewrite take_0, Nat.sub_0_r, drop_0. simpl.
  rewrite (drop_ge (fresh_buffer _)) by (rewrite length_fresh_buffer; lia).
  by rewrite app_nil_r.
Qed.

Lemma SimpleVector_copy_throws_bad_alloc (other : SimpleVector T) t :
  can_allocate (size_ other) = false →
  SimpleVector_copy other t = Throws bad_alloc t.
Proof.
  intros Ha. unfold SimpleVector_copy.
  by erewrite bind_throws by by apply ArrayPtr_new_throws.
Qed.

End Constructors.

(** X8: the constructors from a size: when the allocation succeeds, the
    object has that size and that capacity and every element is the given
    value, or the default value for the constructor without a value; when
    the allocation fails the constructor throws bad_alloc. *)
Theorem constructor_from_size :
  ∀ T (E : Element T) (H : Heap T) X (t : X) (n : N) (value : T),
    (can_allocate n = true → copy_ok value = true →
     ∃ c, SimpleVector_fill n value t = Returns c t
          ∧ GetSize c = n ∧ GetCapacity c = n
          ∧ elements c = replicate (N.to_nat n) value
          ∧ consistent c = true)
    ∧ (can_allocate n = true → copy_ok value_init = true →
       ∃ c, SimpleVector_sized n t = Returns c t
            ∧ GetSize c = n ∧ GetCapacity c = n
            ∧ elements c = replicate (N.to_nat n) value_init
            ∧ consistent c = true)
    ∧ (can_allocate n = false →
       SimpleVector_fill n value t = Throws bad_alloc t
       ∧ SimpleVector_sized n t = Throws bad_alloc t).
Proof.
  intros T E H X t n value.
  assert (∀ x : T, can_allocate n = true → copy_ok x = true →
            ∃ c, SimpleVector_fill n x t = Returns c t
                 ∧ GetSize c = n ∧ GetCapacity c = n
                 ∧ elements c = replicate (N.to_nat n) x
                 ∧ consistent c = true) as Hfill.
  { intros x Ha Hc. pose proof (can_allocate_bound _ Ha) as Hb.
    eexists. split; [by apply SimpleVector_fill_returns|].
    split_and!; [done | done | |].
    - unfold elements. cbn [items_ size_]. apply take_ge.
      by rewrite length_replicate.
    - apply consistent_spec. cbn [items_ size_ capacity_].
      rewrite length_replicate. lia. }
  split_and!.
  - apply Hfill.
  - apply Hfill.
  - intros Ha. split; by apply SimpleVector_fill_throws.
Qed.

Lemma constructor_from_size_witness :
  ∃ c, SimpleVector_fill (H0 := plentiful) 3 7%Z () = Returns c ()
       ∧ GetSize c = 3%N ∧ GetCapacity c = 3%N
       ∧ elements c = [7; 7; 7]%Z
       ∧ consistent c = true.
Proof.
  apply (proj1 (constructor_from_size Z int_element plentiful () () 3%N 7%Z));
    reflexivity.
Defined.

(** X9: the constructor from an initializer list, when the allocation
    succeeds and no copy throws, builds an object whose elements are the
    list in order and whose size and capacity are its length; when the
    allocation fails it throws bad_alloc. *)
Theorem constructor_from_list :
  ∀ T (E : Element T) (H : Heap T) X (t : X) (init : list T),
    (can_allocate (N.of_nat (length init)) = true →
     forallb copy_ok init = true →
     ∃ c, SimpleVector_init init t = Returns c t
          ∧ elements c = init
          ∧ GetSize c = N.of_nat (length init)
          ∧ GetCapacity c = N.of_nat (length init)
          ∧ consistent c = true)
    ∧ (can_allocate (N.of_nat (length init)) = false →
       SimpleVector_init init t = Throws bad_alloc t).
Proof.
  intros T E H X t init. split.
  - intros Ha Hc. pose proof (can_allocate_bound _ Ha) as Hb.
    eexists. split; [by apply SimpleVector_init_returns|].
    split_and!; [| done | done |].
    + unfold elements. cbn [items_ size_]. apply take_ge. lia.
    + apply consistent_spec. cbn [items_ size_ capacity_]. lia.
  - intros Ha. unfold SimpleVector_init.
    by erewrite bind_throws by by apply ArrayPtr_new_throws.
Qed.

Lemma constructor_from_list_witness :
  ∃ c, SimpleVector_init (H0 := plentiful) [4; 5]%Z () = Returns c ()
       ∧ elements c = [4; 5]%Z
       ∧ GetSize c = 2%N
       ∧ GetCapacity c = 2%N
       ∧ consistent c = true.
Proof.
  apply (proj1 (constructor_from_list Z int_element plentiful () () [4; 5]%Z));
    reflexivity.
Defined.

(** X10: the constructor from a reservation builds an empty object of the
    reserved capacity, and as many values as the reservation can then be
    pushed without any further allocation: they end up as the elements, in
    order, under the same capacity. *)
Theorem constructor_from_reservation :
  ∀ T (E : Element T) (H : Heap T) X (t : X) (n : N) (xs : list T),
    can_allocate n = true →
    (N.of_nat (length xs) ≤ n)%N →
    forallb copy_ok xs = true →
    ∃ c v', SimpleVector_reserved n t = Returns c t
            ∧ GetSize c = 0%N ∧ GetCapacity c = n ∧ elements c = []
            ∧ perform_all (call_PushBack <$> xs) c = Returns () v'
            ∧ elements v' = xs ∧ GetCapacity v' = n.
Proof.
  intros T E H X t n xs Ha Hxs Hc. pose proof (can_allocate_bound _ Ha) as Hb.
  set (c := {| items_ := fresh_buffer n; size_ := 0; capacity_ := n |}).
  assert (consistent c = true) as Hcons.
  { apply consistent_spec. unfold c. cbn [items_ size_ capacity_].
    rewrite length_fresh_buffer. lia. }
  destruct (push_all_in_place xs c Hcons) as (v' & Hrun & Hel & Hcap & _);
    [unfold c; cbn [size_ capacity_]; lia | done |].
  exists c, v'. split_and!; try done.
  unfold SimpleVector_reserved.
  by erewrite bind_returns by by apply ArrayPtr_new_returns.
Qed.

Lemma constructor_from_reservation_witness :
  ∃ c v', SimpleVector_reserved (H0 := plentiful) 2 () = Returns c ()
          ∧ GetSize c = 0%N ∧ GetCapacity c = 2%N ∧ elements c = []
          ∧ perform_all (H0 := plentiful) (call_PushBack <$> [4; 5]%Z) c = Returns () v'
          ∧ elements v' = [4; 5]%Z ∧ GetCapacity v' = 2%N.
Proof.
  apply (constructor_from_reservation Z int_element plentiful () () 2%N [4; 5]%Z);
    [reflexivity | simpl; lia | reflexivity].
Defined.

(** X11: the copy constructor, when the allocation succeeds and no copy
    throws, builds an object with the elements of the source in order whose
    capacity is the size of the source, not its capacity. *)
Theorem copy_constructor_trims :
  ∀ T (E : Element T) (H : Heap T) X (t : X) (other : SimpleVector T),
    consistent other = true →
    can_allocate (size_ other) = true →
    forallb copy_ok (elements other) = true →
    ∃ c, SimpleVector_copy other t = Returns c t
         ∧ elements c = elements other
         ∧ GetSize c = size_ other
         ∧ GetCapacity c = size_ other
         ∧ consistent c = true.
Proof.
  intros T E H X t other Hv Ha Hc. pose proof Hv as (Hs & Hl & Hm)%consistent_spec.
  pose proof (length_elements _ Hv) as Hle.
  eexists. split; [apply SimpleVector_copy_returns; (done || lia)|].
  split_and!; [| done | done |].
  - unfold elements at 1. cbn [items_ size_]. apply take_ge. lia.
  - apply consistent_spec. cbn [items_ size_ capacity_]. lia.
Qed.

Lemma copy_constructor_trims_witness :
  ∃ c, SimpleVector_copy (H0 := plentiful)
                         {| items_ := [1; 2; 0; 0]%Z; size_ := 2; capacity_ := 4 |} ()
         = Returns c ()
       ∧ elements c = [1; 2]%Z
       ∧ GetSize c = 2%N
       ∧ GetCapacity c = 2%N
       ∧ consistent c = true.
Proof.
  apply (copy_constructor_trims Z int_element plentiful () ()
           {| items_ := [1; 2; 0; 0]%Z; size_ := 2; capacity_ := 4 |});
    reflexivity.
Defined.

(** ** Copy assignment between two objects *)

Section Assignment.
Context {T : Type} `{Element T} `{Heap T}.
Implicit Types (v r : SimpleVector T) (σ : gmap nat (SimpleVector T)).

Lemma assign_other_returns r v :
  consistent r = true → can_allocate (size_ r) = true →
  forallb copy_ok (elements r) = true →
  assign_other r v =
    Returns () {| items_ := elements r; size_ := size_ r; capacity_ := size_ r |}.
Proof.
  intros Hr Ha Hc. pose proof Hr as (Hs & Hl & Hm)%consistent_spec.
  unfold assign_other.
  destruct (IsEmpty r).
  - unfold st_bind at 1, Clear, set_size.
    erewrite bind_returns by (apply SimpleVector_copy_returns; (done || lia)).
    reflexivity.
  - rewrite bind_ret.
    erewrite bind_returns by (apply SimpleVector_copy_returns; (done || lia)).
    reflexivity.
Qed.

Lemma copy_assign_distinct σ (this rhs : nat) v r :
  this ≠ rhs → σ !! this = Some v → σ !! rhs = Some r →
  copy_assign this rhs σ =
    match assign_other r v with
    | Returns a v' => Returns a (<[this:=v']> σ)
    | Throws e v' => Throws e (<[this:=v']> σ)
    | Undefined => Undefined
    end.
Proof.
  intros Hne Hthis Hrhs. unfold copy_assign, at_object.
  destruct (Nat.eqb_spec rhs this) as [->|_]; [done|]. simpl.
  by rewrite Hrhs, Hthis.
Qed.

End Assignment.

(** X12: copy assignment between two different objects, when the
    allocation succeeds and no copy throws, gives the target the elements
    and the size of the source and a capacity equal to that size, and
    leaves the source and every other object as they were. *)
Theorem copy_assignment_copies :
  ∀ T (E : Element T) (H : Heap T) (σ : gmap nat (SimpleVector T))
    (this rhs : nat) (v r : SimpleVector T),
    this ≠ rhs →
    σ !! this = Some v →
    σ !! rhs = Some r →
    consistent r = true →
    can_allocate (size_ r) = true →
    forallb copy_ok (elements r) = true →
    ∃ σ' v', copy_assign this rhs σ = Returns () σ'
             ∧ σ' !! this = Some v'
             ∧ elements v' = elements r
             ∧ GetSize v' = size_ r ∧ GetCapacity v' = size_ r
             ∧ (∀ other, other ≠ this → σ' !! other = σ !! other).
Proof.
  intros T E H σ this rhs v r Hne Hthis Hrhs Hr Ha Hc.
  pose proof (length_elements _ Hr) as Hle.
  rewrite (copy_assign_distinct σ this rhs v r) by done.
  rewrite assign_other_returns by done.
  do 2 eexists. split; [reflexivity|].
  split_and!; [apply lookup_insert_eq | | done | done |].
  - unfold elements at 1. cbn [items_ size_]. apply take_ge. lia.
  - intros other Hother. by apply lookup_insert_ne.
Qed.

Lemma copy_assignment_copies_witness :
  ∃ σ' v', copy_assign (H0 := plentiful) 0 1
             {[ 0 := one_two_three;
                1 := {| items_ := [7; 0]%Z; size_ := 1; capacity_ := 2 |} ]}
             = Returns () σ'
           ∧ σ' !! 0 = Some v'
           ∧ elements v' = [7]%Z
           ∧ GetSize v' = 1%N ∧ GetCapacity v' = 1%N
           ∧ (∀ other, other ≠ 0 →
                σ' !! other
                = ({[ 0 := one_two_three;
                      1 := {| items_ := [7; 0]%Z; size_ := 1; capacity_ := 2 |} ]}
                     : gmap nat (SimpleVector Z)) !! other).
Proof.
  apply (copy_assignment_copies Z int_element plentiful
           {[ 0 := one_two_three;
              1 := {| items_ := [7; 0]%Z; size_ := 1; capacity_ := 2 |} ]}
           0 1 one_two_three
           {| items_ := [7; 0]%Z; size_ := 1; capacity_ := 2 |});
    [lia | reflexivity | reflexivity | reflexivity | reflexivity | reflexivity].
Defined.

(** X13: copy assignment is all or nothing: when it throws, every object,
    the target included, is as it was before the call; and it does throw
    bad_alloc when the copy of a non-empty source cannot be allocated. *)
Theorem copy_assignment_strong_guarantee :
  ∀ T (E : Element T) (H : Heap T) (σ : gmap nat (SimpleVector T))
    (this rhs : nat) (v r : SimpleVector T),
    σ !! this = Some v →
    σ !! rhs = Some r →
    (∀ e σ', copy_assign this rhs σ = Throws e σ' → σ' = σ)
    ∧ (this ≠ rhs → can_allocate (size_ r) = false →
       copy_assign this rhs σ = Throws bad_alloc σ).
Proof.
  intros T E H σ this rhs v r Hthis Hrhs.
  destruct (decide (this = rhs)) as [<- | Hne].
  - split; [|done]. intros e σ'. unfold copy_assign. by rewrite Nat.eqb_refl.
  - rewrite (copy_assign_distinct σ this rhs v r) by done. split.
    + intros e σ'. destruct (assign_other r v) as [a v' | e' v' |] eqn:Eas; [done | | done].
      apply assign_other_throw_unchanged in Eas as ->.
      intros [= _ <-]. by apply insert_id.
    + intros _ Ha.
      assert (assign_other r v = Throws bad_alloc v) as ->.
      { unfold assign_other.
        assert (IsEmpty r = false) as ->.
        { unfold IsEmpty. apply N.eqb_neq. intros Hz.
          unfold can_allocate in Ha. by rewrite Hz in Ha. }
        rewrite bind_ret.
        by erewrite bind_throws by by apply SimpleVector_copy_throws_bad_alloc. }
      by rewrite insert_id.
Qed.

Lemma copy_assignment_strong_guarantee_witness :
  (∀ e σ',
     copy_assign (H0 := exhausted) 0 1
       {[ 0 := one_two_three;
          1 := {| items_ := [7; 0]%Z; size_ := 1; capacity_ := 2 |} ]}
       = Throws e σ' →
     σ' = {[ 0 := one_two_three;
             1 := {| items_ := [7; 0]%Z; size_ := 1; capacity_ := 2 |} ]})
  ∧ (0 ≠ 1 →
     can_allocate (H0 := exhausted)
       (size_ {| items_ := [7; 0]%Z; size_ := 1; capacity_ := 2 |}) = false →
     copy_assign (H0 := exhausted) 0 1
       {[ 0 := one_two_three;
          1 := {| items_ := [7; 0]%Z; size_ := 1; capacity_ := 2 |} ]}
     = Throws bad_alloc
         {[ 0 := one_two_three;
            1 := {| items_ := [7; 0]%Z; size_ := 1; capacity_ := 2 |} ]}).
Proof.
  apply (copy_assignment_strong_guarantee Z int_element exhausted
           {[ 0 := one_two_three;
              1 := {| items_ := [7; 0]%Z; size_ := 1; capacity_ := 2 |} ]}
           0 1 one_two_three
           {| items_ := [7; 0]%Z; size_ := 1; capacity_ := 2 |});
    reflexivity.
Defined.

(** ** Comparisons of containers of int *)

Lemma std_equal_int (r1 : list Z) : ∀ r2 : list Z,
  length r1 = length r2 → (std_equal r1 r2 = true ↔ r1 = r2).
Proof.
  induction r1 as [|x r1 IH]; intros [|y r2] Hlen; simpl in *; try done.
  rewrite andb_true_iff, IH by lia. unfold elem_eq. simpl. rewrite Z.eqb_eq.
  split; [by intros [-> ->] | by intros [= -> ->]].
Qed.

Lemma lexicographical_compare_int_irrefl (r : list Z) :
  lexicographical_compare r r = false.
Proof.
  induction r as [|x r IH]; simpl; [done|].
  unfold elem_lt. simpl. by rewrite Z.ltb_irrefl.
Qed.

Lemma lexicographical_compare_int_asym (r1 : list Z) : ∀ r2 : list Z,
  lexicographical_compare r1 r2 = true → lexicographical_compare r2 r1 = false.
Proof.
  induction r1 as [|x r1 IH]; intros [|y r2]; simpl; try done.
  unfold elem_lt. simpl.
  destruct (Z.ltb_spec x y), (Z.ltb_spec y x); try done; try lia.
  apply IH.
Qed.

Lemma lexicographical_compare_int_trans (r1 : list Z) : ∀ r2 r3 : list Z,
  lexicographical_compare r1 r2 = true → lexicographical_compare r2 r3 = true →
  lexicographical_compare r1 r3 = true.
Proof.
  induction r1 as [|x r1 IH]; intros [|y r2] [|z r3]; simpl; try done.
  unfold elem_lt. simpl.
  destruct (Z.ltb_spec x y), (Z.ltb_spec y x), (Z.ltb_spec y z), (Z.ltb_spec z y),
    (Z.ltb_spec x z), (Z.ltb_spec z x); try done; try lia.
  apply IH.
Qed.

Lemma lexicographical_compare_int_total (r1 : list Z) : ∀ r2 : list Z,
  lexicographical_compare r1 r2 = false → lexicographical_compare r2 r1 = false →
  r1 = r2.
Proof.
  induction r1 as [|x r1 IH]; intros [|y r2]; simpl; try done.
  unfold elem_lt. simpl.
  destruct (Z.ltb_spec x y), (Z.ltb_spec y x); try done.
  intros H1 H2. f_equal; [lia | by apply IH].
Qed.

(** X14: on containers of int, == between two different consistent
    objects holds exactly when they have the same elements in the same
    order, whatever their capacities; an object is == to itself; and !=
    is the negation of ==. *)
Theorem equality_compares_elements :
  ∀ (σ : gmap nat (SimpleVector Z)) (lhs rhs : nat) (l r : SimpleVector Z),
    σ !! lhs = Some l →
    σ !! rhs = Some r →
    consistent l = true →
    consistent r = true →
    ∃ b, operator_eq σ lhs rhs = Some b
         ∧ operator_ne σ lhs rhs = Some (negb b)
         ∧ (b = true ↔ elements l = elements r)
         ∧ operator_eq σ lhs lhs = Some true.
Proof.
  intros σ lhs rhs l r Hl Hr Hcl Hcr.
  pose proof (length_elements _ Hcl) as Hlen_l.
  pose proof (length_elements _ Hcr) as Hlen_r.
  assert (operator_eq σ lhs lhs = Some true) as Hself.
  { unfold operator_eq. by rewrite Nat.eqb_refl. }
  destruct (decide (lhs = rhs)) as [<- | Hne].
  - exists true. unfold operator_ne. rewrite Hself.
    split_and!; [done | done | | done].
    split; [|done]. intros _. congruence.
  - assert (operator_eq σ lhs rhs
            = Some ((GetSize l =? GetSize r)%N && std_equal (elements l) (elements r)))
      as Heq_def.
    { unfold operator_eq. destruct (Nat.eqb_spec lhs rhs); [done|]. by rewrite Hl, Hr. }
    eexists. unfold operator_ne. rewrite Heq_def.
    split_and!; [reflexivity | reflexivity | | done].
    rewrite andb_true_iff, N.eqb_eq. unfold GetSize. split.
    + intros [Hsz Heq]. apply std_equal_int in Heq; [done | lia].
    + intros Heq. assert (size_ l = size_ r) as Hsz by (rewrite Heq in Hlen_l; lia).
      split; [done|]. apply std_equal_int; [lia | done].
Qed.

Lemma equality_compares_elements_witness :
  ∃ b, operator_eq
         {[ 0 := one_two_three;
            1 := {| items_ := [1; 2; 3; 0]%Z; size_ := 3; capacity_ := 4 |} ]} 0 1
       = Some b
       ∧ operator_ne
           {[ 0 := one_two_three;
              1 := {| items_ := [1; 2; 3; 0]%Z; size_ := 3; capacity_ := 4 |} ]} 0 1
         = Some (negb b)
       ∧ (b = true
          ↔ elements one_two_three
            = elements {| items_ := [1; 2; 3; 0]%Z; size_ := 3; capacity_ := 4 |})
       ∧ operator_eq
           {[ 0 := one_two_three;
              1 := {| items_ := [1; 2; 3; 0]%Z; size_ := 3; capacity_ := 4 |} ]} 0 0
         = Some true.
Proof.
  apply (equality_compares_elements
           {[ 0 := one_two_three;
              1 := {| items_ := [1; 2; 3; 0]%Z; size_ := 3; capacity_ := 4 |} ]}
           0 1 one_two_three
           {| items_ := [1; 2; 3; 0]%Z; size_ := 3; capacity_ := 4 |});
    reflexivity.
Defined.

(** X15: on containers of int, < is a strict total order of the element
    sequences: no container is less than itself, two containers are never
    each less than the other, < is transitive, and two containers neither
    of which is less than the other have the same elements. *)
Theorem less_than_is_strict_total_order :
  ∀ a b c : SimpleVector Z,
    operator_lt a a = false
    ∧ (operator_lt a b = true → operator_lt b a = false)
    ∧ (operator_lt a b = true → operator_lt b c = true → operator_lt a c = true)
    ∧ (operator_lt a b = false → operator_lt b a = false → elements a = elements b).
Proof.
  intros a b c. unfold operator_lt. split_and!.
  - apply lexicographical_compare_int_irrefl.
  - apply lexicographical_compare_int_asym.
  - apply lexicographical_compare_int_trans.
  - apply lexicographical_compare_int_total.
Qed.

Lemma less_than_is_strict_total_order_witness :
  operator_lt one_two_three one_two_three = false
  ∧ (operator_lt one_two_three {| items_ := [1; 3]%Z; size_ := 2; capacity_ := 2 |} = true →
     operator_lt {| items_ := [1; 3]%Z; size_ := 2; capacity_ := 2 |} one_two_three = false)
  ∧ (operator_lt one_two_three {| items_ := [1; 3]%Z; size_ := 2; capacity_ := 2 |} = true →
     operator_lt {| items_ := [1; 3]%Z; size_ := 2; capacity_ := 2 |}
                 {| items_ := [2]%Z; size_ := 1; capacity_ := 1 |} = true →
     operator_lt one_two_three {| items_ := [2]%Z; size_ := 1; capacity_ := 1 |} = true)
  ∧ (operator_lt one_two_three {| items_ := [1; 3]%Z; size_ := 2; capacity_ := 2 |} = false →
     operator_lt {| items_ := [1; 3]%Z; size_ := 2; capacity_ := 2 |} one_two_three = false →
     elements one_two_three
     = elements {| items_ := [1; 3]%Z; size_ := 2; capacity_ := 2 |}).
Proof.
  apply (less_than_is_strict_total_order one_two_three
           {| items_ := [1; 3]%Z; size_ := 2; capacity_ := 2 |}
           {| items_ := [2]%Z; size_ := 1; capacity_ := 1 |}).
Defined.

(** ** The growth policy *)

Section GrowthPolicy.
Context {T : Type} `{Element T} `{Heap T}.
Implicit Types (v s : SimpleVector T).

Lemma capacity_after_set_capacity {A B} (g : N) (k1 : M A) (k2 : A → M B) v s' :
  same_capacity (let* a := k1 in k2 a)
                {| items_ := items_ v; size_ := size_ v; capacity_ := g |} →
  final_state ((let* a := (set_capacity g >> k1) in k2 a) v) = Some s' →
  capacity_ s' = g.
Proof. intros Hsc Hfin. exact (Hsc s' Hfin). Qed.

Lemma PushBack_capacity item v s' :
  final_state (PushBack item v) = Some s' → capacity_ s' = capacity_after_adding v.
Proof.
  unfold PushBack, capacity_after_adding. rewrite bind_get. intros Hfin.
  destruct (N.ltb_spec (capacity_ v) (wrap (size_ v + 1))),
           (N.leb_spec (wrap (size_ v + 1)) (capacity_ v)); try lia.
  - eapply capacity_after_set_capacity in Hfin; [exact Hfin|].
    apply sc_bind; [|intros; apply sc_set_size].
    apply sc_get.
    apply sc_bind; [apply sc_ReallocateCopy|]. intros b s2 _.
    apply sc_bind; [apply sc_on_local|]. intros [u b'] s3 _.
    apply sc_bind; [apply sc_swap_items|]. intros. apply sc_ret.
  - revert Hfin. apply sc_bind; [apply sc_on_items | intros; apply sc_set_size].
Qed.

Lemma PushBack_rv_capacity item v s' :
  final_state (PushBack_rv item v) = Some s' → capacity_ s' = capacity_after_adding v.
Proof.
  unfold PushBack_rv, capacity_after_adding. rewrite bind_get. intros Hfin.
  destruct (N.ltb_spec (capacity_ v) (wrap (size_ v + 1))),
           (N.leb_spec (wrap (size_ v + 1)) (capacity_ v)); try lia.
  - eapply capacity_after_set_capacity in Hfin; [exact Hfin|].
    apply sc_bind; [|intros; apply sc_set_size].
    apply sc_get.
    apply sc_bind; [apply sc_ReallocateCopy|]. intros b s2 _.
    apply sc_bind; [apply sc_on_local|]. intros [u b'] s3 _.
    apply sc_bind; [apply sc_swap_items|]. intros. apply sc_ret.
  - revert Hfin. apply sc_bind; [apply sc_on_items | intros; apply sc_set_size].
Qed.

Lemma Insert_capacity (pos : N) value v s' :
  final_state (Insert pos value v) = Some s' → capacity_ s' = capacity_after_adding v.
Proof.
  unfold Insert, capacity_after_adding. rewrite bind_get. intros Hfin.
  destruct (pos <=? size_ v)%N eqn:Hpos;
    [rewrite bind_assert_true in Hfin by done
    |rewrite bind_assert_false in Hfin by done; discriminate].
  destruct (N.leb_spec (wrap (size_ v + 1)) (capacity_ v)).
  - revert Hfin. apply sc_bind; [apply sc_on_items|]. intros.
    apply sc_bind; [apply sc_set_size | intros; apply sc_ret].
  - eapply capacity_after_set_capacity in Hfin; [exact Hfin|].
    apply sc_bind; [|intros; apply sc_bind; [apply sc_set_size | intros; apply sc_ret]].
    apply sc_get.
    apply sc_bind; [apply sc_ArrayPtr_new|]. intros b s2 _.
    apply sc_bind; [apply sc_on_local|]. intros [u b'] s3 _.
    apply sc_bind; [apply sc_swap_items|]. intros. apply sc_ret.
Qed.

Lemma Insert_rv_capacity (pos : N) value v s' :
  final_state (Insert_rv pos value v) = Some s' → capacity_ s' = capacity_after_adding v.
Proof.
  unfold Insert_rv, capacity_after_adding. rewrite bind_get. intros Hfin.
  destruct (pos <=? size_ v)%N eqn:Hpos;
    [rewrite bind_assert_true in Hfin by done
    |rewrite bind_assert_false in Hfin by done; discriminate].
  destruct (N.leb_spec (wrap (size_ v + 1)) (capacity_ v)).
  - revert Hfin. apply sc_bind; [apply sc_on_items|]. intros.
    apply sc_bind; [apply sc_set_size | intros; apply sc_ret].
  - eapply capacity_after_set_capacity in Hfin; [exact Hfin|].
    apply sc_bind; [|intros; apply sc_bind; [apply sc_set_size | intros; apply sc_ret]].
    apply sc_get.
    apply sc_bind; [apply sc_ArrayPtr_new|]. intros b s2 _.
    apply sc_bind; [apply sc_on_local|]. intros [u b'] s3 _.
    apply sc_bind; [apply sc_set_items|]. intros _ s4 _.
    apply sc_bind; [apply sc_swap_items|]. intros. apply sc_ret.
Qed.

(** On a consistent object the wrap-around plays no part. *)
Lemma capacity_after_adding_consistent v :
  consistent v = true →
  capacity_after_adding v =
    if (size_ v <? capacity_ v)%N then capacity_ v
    else if (capacity_ v =? 0)%N then 1%N else (capacity_ v * 2)%N.
Proof.
  intros (Hs & Hl & Hm)%consistent_spec. unfold capacity_after_adding.
  rewrite !wrap_small by lia.
  destruct (N.leb_spec (size_ v + 1) (capacity_ v)), (N.ltb_spec (size_ v) (capacity_ v));
    try lia.
  destruct (N.eqb_spec (capacity_ v) 0); lia.
Qed.

End GrowthPolicy.

(** X16: the growth policy.  However PushBack or Insert, in either
    overload, ends on a consistent object, the capacity it leaves is the
    old capacity when one more element fitted, and otherwise twice the old
    capacity, or 1 when the old capacity was 0. *)
Theorem growth_doubles_capacity :
  ∀ T (E : Element T) (H : Heap T) (v : SimpleVector T) (pos : N) (item : T),
    consistent v = true →
    let policy := if (size_ v <? capacity_ v)%N then capacity_ v
                  else if (capacity_ v =? 0)%N then 1%N else (capacity_ v * 2)%N in
    (∀ s', final_state (PushBack item v) = Some s' → GetCapacity s' = policy)
    ∧ (∀ s', final_state (PushBack_rv item v) = Some s' → GetCapacity s' = policy)
    ∧ (∀ s', final_state (Insert pos item v) = Some s' → GetCapacity s' = policy)
    ∧ (∀ s', final_state (Insert_rv pos item v) = Some s' → GetCapacity s' = policy).
Proof.
  intros T E H v pos item Hv policy. subst policy.
  rewrite <- (capacity_after_adding_consistent v Hv). unfold GetCapacity.
  split_and!; intros s'.
  - apply PushBack_capacity.
  - apply PushBack_rv_capacity.
  - apply Insert_capacity.
  - apply Insert_rv_capacity.
Qed.

Lemma growth_doubles_capacity_witness :
  GetCapacity {| items_ := [1; 2; 3; 4; -1; -1]%Z; size_ := 4; capacity_ := 6 |} = 6%N.
Proof.
  apply (proj1 (growth_doubles_capacity Z int_element plentiful one_two_three 0%N 4%Z
                  eq_refl)).
  reflexivity.
Defined.

(** X17: consistency is an invariant.  From a consistent object every
    mutating call that returns leaves a consistent object (size at most
    capacity, capacity equal to the slots of the buffer), and so does every
    sequence of calls that returns; Reserve, Resize, Clear, PopBack, Erase,
    copy assignment and swap leave one also when they throw. *)
Theorem calls_keep_consistency :
  ∀ T (E : Element T) (H : Heap T) (v : SimpleVector T),
    consistent v = true →
    (∀ (c : mutation T) a s',
       consistent_argument c = true →
       perform c v = Returns a s' → consistent s' = true)
    ∧ (∀ (c : mutation T) e s',
         consistent_argument c = true → writes_capacity_last c = true →
         perform c v = Throws e s' → consistent s' = true)
    ∧ (∀ (cs : list (mutation T)) a s',
         forallb consistent_argument cs = true →
         perform_all cs v = Returns a s' → consistent s' = true).
Proof.
  intros T E H v Hv. split_and!.
  - intros c a s' Harg Hrun.
    pose proof (perform_keeps_consistent c v Hv Harg) as Htriple.
    unfold triple in Htriple. by rewrite Hrun in Htriple.
  - intros c e s' Harg Hlast Hrun.
    pose proof (perform_keeps_consistent c v Hv Harg) as Htriple.
    unfold triple in Htriple. rewrite Hrun in Htriple. by apply Htriple.
  - intros cs a s' Hargs Hrun.
    pose proof (perform_all_keeps_consistent cs v Hv Hargs) as Htriple.
    unfold triple in Htriple. by rewrite Hrun in Htriple.
Qed.

Lemma calls_keep_consistency_witness :
  consistent {| items_ := [1; 9; 2; 3; -1; -1]%Z; size_ := 4; capacity_ := 6 |} = true.
Proof.
  apply (proj1 (calls_keep_consistency Z int_element plentiful one_two_three eq_refl)
           (call_Insert 1%N 9%Z) () _ eq_refl).
  reflexivity.
Defined.

(** X18: Reserve and Resize are all or nothing on a failed allocation.
    Reserve throws exactly when the capacity must grow and the allocation
    fails; the exception is bad_alloc and the object is as it was.  Resize
    beyond the capacity whose allocation fails throws bad_alloc and leaves
    the object as it was. *)
Theorem failed_allocation_changes_nothing :
  ∀ T (E : Element T) (H : Heap T) (v : SimpleVector T) (n : N),
    consistent v = true →
    ((∃ e s', Reserve n v = Throws e s')
     ↔ (capacity_ v < n)%N ∧ can_allocate n = false)
    ∧ (∀ e s', Reserve n v = Throws e s' → e = bad_alloc ∧ s' = v)
    ∧ ((capacity_ v < n)%N → can_allocate (N.max (capacity_ v * 2) n) = false →
       Resize n v = Throws bad_alloc v).
Proof.
  intros T E H v n Hv. pose proof Hv as (Hs & Hl & Hm)%consistent_spec.
  assert ((capacity_ v < n)%N → can_allocate n = false →
          Reserve n v = Throws bad_alloc v) as Hthrows.
  { intros Hn Ha. unfold Reserve. rewrite bind_get.
    apply N.ltb_lt in Hn as ->.
    by erewrite bind_throws by by apply ReallocateCopy_throws. }
  assert (∀ e s', Reserve n v = Throws e s' →
                  (capacity_ v < n)%N ∧ can_allocate n = false) as Honly.
  { intros e s' Hrun.
    destruct (N.le_gt_cases n (capacity_ v)) as [Hle | Hgt].
    { rewrite Reserve_enough in Hrun by done. discriminate. }
    destruct (can_allocate n) eqn:Ha; [|done].
    rewrite Reserve_grows in Hrun by done. discriminate. }
  split_and!.
  - split.
    + intros (e & s' & Hrun). by apply (Honly e s').
    + intros [Hn Ha]. exists bad_alloc, v. by apply Hthrows.
  - intros e s' Hrun. destruct (Honly e s' Hrun) as [Hn Ha].
    rewrite Hthrows in Hrun by done. by injection Hrun as <- <-.
  - intros Hn Ha. apply Resize_bad_alloc_unchanged; [done|].
    by rewrite wrap_small by lia.
Qed.

Lemma failed_allocation_changes_nothing_witness :
  ((∃ e s', Reserve (H0 := exhausted) 8 one_two_three = Throws e s')
   ↔ (capacity_ one_two_three < 8)%N ∧ can_allocate (H0 := exhausted) 8 = false)
  ∧ (∀ e s', Reserve (H0 := exhausted) 8 one_two_three = Throws e s' →
             e = bad_alloc ∧ s' = one_two_three)
  ∧ ((capacity_ one_two_three < 8)%N →
     can_allocate (H0 := exhausted) (N.max (capacity_ one_two_three * 2) 8) = false →
     Resize (H0 := exhausted) 8 one_two_three = Throws bad_alloc one_two_three).
Proof.
  apply (failed_allocation_changes_nothing Z int_element exhausted one_two_three 8%N).
  reflexivity.
Defined.

(** X19: PopBack on a non-empty container drops exactly the last element
    and touches neither the buffer nor the capacity; on an empty container
    its assertion fails. *)
Theorem PopBack_drops_last :
  ∀ T (v : SimpleVector T),
    consistent v = true →
    ((size_ v ≠ 0)%N →
     ∃ v' x, PopBack v = Returns () v'
             ∧ elements v = elements v' ++ [x]
             ∧ GetSize v' = (size_ v - 1)%N
             ∧ GetCapacity v' = capacity_ v
             ∧ items_ v' = items_ v)
    ∧ (size_ v = 0%N → PopBack v = Undefined).
Proof.
  intros T v Hv. pose proof Hv as (Hs & Hl & Hm)%consistent_spec. split.
  - intros Hne.
    assert (is_Some (items_ v !! (N.to_nat (size_ v) - 1))) as [x Hx].
    { apply lookup_lt_is_Some_2. lia. }
    eexists _, x. split; [by apply PopBack_returns|].
    split_and!; [| done | done | done].
    unfold elements. cbn [items_ size_].
    replace (N.to_nat (size_ v)) with (S (N.to_nat (size_ v) - 1)) at 1 by lia.
    rewrite (take_S_r _ _ _ Hx). do 2 f_equal. lia.
  - intros Hz. unfold PopBack, IsEmpty. rewrite bind_get, Hz. reflexivity.
Qed.

Lemma PopBack_drops_last_witness :
  ((size_ one_two_three ≠ 0)%N →
   ∃ v' x, PopBack one_two_three = Returns () v'
           ∧ elements one_two_three = elements v' ++ [x]
           ∧ GetSize v' = (size_ one_two_three - 1)%N
           ∧ GetCapacity v' = capacity_ one_two_three
           ∧ items_ v' = items_ one_two_three)
  ∧ (size_ one_two_three = 0%N → PopBack one_two_three = Undefined).
Proof.
  apply (PopBack_drops_last Z one_two_three). reflexivity.
Defined.

(** ** No access outside the buffer *)

Section Defined.
Context {X : Type}.

Lemma dt_bind {A B} (m : St X A) (k : A → St X B) s
    (R1 : A → X → Prop) (E1 : X → Prop) (R : B → X → Prop) (E : X → Prop) :
  defined_triple m s R1 E1 →
  (∀ s', E1 s' → E s') →
  (∀ a s', R1 a s' → defined_triple (k a) s' R E) →
  defined_triple (let* x := m in k x) s R E.
Proof.
  unfold defined_triple, st_bind. intros Hm HE Hk.
  destruct (m s) as [a s' | e s' |]; [by apply Hk | by apply HE | done].
Qed.

Lemma dt_weaken {A} (m : St X A) s (R R' : A → X → Prop) (E E' : X → Prop) :
  defined_triple m s R E →
  (∀ a s', R a s' → R' a s') → (∀ s', E s' → E' s') →
  defined_triple m s R' E'.
Proof.
  unfold defined_triple. intros Hm HR HE.
  destruct (m s); [by apply HR | by apply HE | done].
Qed.

Lemma dt_defined {A} (m : St X A) s R E : defined_triple m s R E → m s ≠ Undefined.
Proof. unfold defined_triple. by destruct (m s). Qed.

Lemma dt_get {B} (k : X → St X B) s R E :
  defined_triple (k s) s R E → defined_triple (let* x := get in k x) s R E.
Proof. done. Qed.

Lemma dt_assert {B} (b : bool) (k : St X B) s R E :
  b = true → defined_triple k s R E → defined_triple (assert b >> k) s R E.
Proof. by intros ->. Qed.

End Defined.

Section InsideBuffer.
Context {T : Type} `{Element T}.
Implicit Types (buf src dst : list T) (x value : T).

Lemma si_bind {A B} (m : St (list T) A) (k : A → St (list T) B) buf :
  stays_inside m buf →
  (∀ a buf', length buf' = length buf → stays_inside (k a) buf') →
  stays_inside (let* a := m in k a) buf.
Proof.
  intros Hm Hk. eapply dt_bind; [exact Hm | done |].
  intros a buf' Hlen. cbv beta in Hlen.
  eapply dt_weaken; [by apply Hk | |]; cbv beta; intros; congruence.
Qed.

Lemma si_ret {A} (a : A) buf : stays_inside (st_ret a) buf.
Proof. done. Qed.

Lemma si_load i buf : i < length buf → stays_inside (load i) buf.
Proof.
  intros Hi. destruct (lookup_lt_is_Some_2 _ _ Hi) as [x Hx].
  unfold stays_inside, defined_triple. by rewrite (load_returns _ _ _ Hx).
Qed.

Lemma si_store i x buf : i < length buf → stays_inside (store i x) buf.
Proof.
  intros Hi. unfold stays_inside, defined_triple.
  rewrite store_returns by done. apply length_insert.
Qed.

Lemma si_store_copy i x buf : i < length buf → stays_inside (store_copy i x) buf.
Proof.
  intros Hi. unfold stays_inside, defined_triple, store_copy.
  apply Nat.ltb_lt in Hi as ->. destruct (copy_ok x); [apply length_insert | done].
Qed.

Lemma si_fill_loop n : ∀ first value buf,
  first + n ≤ length buf → stays_inside (fill_loop first n value) buf.
Proof.
  induction n as [|n IH]; intros first value buf Hb; simpl; [done|].
  apply si_bind; [apply si_store_copy; lia|].
  intros _ buf' Hlen. apply IH. lia.
Qed.

Lemma si_std_fill first last value buf :
  first ≤ last → last ≤ length buf → stays_inside (std_fill first last value) buf.
Proof.
  intros Hfl Hb. unfold std_fill. destruct (Nat.ltb_spec last first); [lia|].
  apply si_fill_loop. lia.
Qed.

Lemma si_copy_loop n : ∀ src first d_first buf,
  first + n ≤ length src → d_first + n ≤ length buf →
  stays_inside (copy_loop src first d_first n) buf.
Proof.
  induction n as [|n IH]; intros src first d buf Hs Hb; simpl; [done|].
  assert (first < length src) as Hlt by lia.
  destruct (lookup_lt_is_Some_2 _ _ Hlt) as [x ->].
  apply si_bind; [apply si_store_copy; lia|].
  intros _ buf' Hlen. apply IH; lia.
Qed.

Lemma si_std_copy src first last d_first buf :
  first ≤ last → last ≤ length src → d_first + (last - first) ≤ length buf →
  stays_inside (std_copy src first last d_first) buf.
Proof.
  intros Hfl Hs Hb. unfold std_copy. destruct (Nat.ltb_spec last first); [lia|].
  apply si_copy_loop; lia.
Qed.

Lemma si_copy_backward_loop n : ∀ last d_last buf,
  n ≤ last → last ≤ length buf → n ≤ d_last → d_last ≤ length buf →
  stays_inside (copy_backward_loop last d_last n) buf.
Proof.
  induction n as [|n IH]; intros last d buf Hn Hl Hd Hdb; simpl; [done|].
  destruct last as [|l], d as [|d']; try lia.
  apply si_bind; [apply si_load; lia|]. intros x buf1 Hlen1.
  apply si_bind; [apply si_store_copy; lia|]. intros _ buf2 Hlen2.
  apply IH; lia.
Qed.

Lemma si_std_copy_backward first last d_last buf :
  first ≤ last → last ≤ length buf → last - first ≤ d_last → d_last ≤ length buf →
  stays_inside (std_copy_backward first last d_last) buf.
Proof.
  intros Hfl Hl Hd Hdb. unfold std_copy_backward.
  destruct (Nat.ltb_spec last first); [lia|].
  apply si_copy_backward_loop; lia.
Qed.

Lemma si_move_backward_loop n : ∀ last d_last buf,
  n ≤ last → last ≤ length buf → n ≤ d_last → d_last ≤ length buf →
  stays_inside (move_backward_loop last d_last n) buf.
Proof.
  induction n as [|n IH]; intros last d buf Hn Hl Hd Hdb; simpl; [done|].
  destruct last as [|l], d as [|d']; try lia.
  apply si_bind; [apply si_load; lia|]. intros x buf1 Hlen1.
  apply si_bind; [apply si_store; lia|]. intros _ buf2 Hlen2.
  apply si_bind; [apply si_store; lia|]. intros _ buf3 Hlen3.
  apply IH; lia.
Qed.

Lemma si_std_move_backward first last d_last buf :
  first ≤ last → last ≤ length buf → last - first ≤ d_last → d_last ≤ length buf →
  stays_inside (std_move_backward first last d_last) buf.
Proof.
  intros Hfl Hl Hd Hdb. unfold std_move_backward.
  destruct (Nat.ltb_spec last first); [lia|].
  apply si_move_backward_loop; lia.
Qed.

Lemma si_move_within_loop n : ∀ first d_first buf,
  first + n ≤ length buf → d_first + n ≤ length buf →
  stays_inside (move_within_loop first d_first n) buf.
Proof.
  induction n as [|n IH]; intros first d buf Hf Hd; simpl; [done|].
  apply si_bind; [apply si_load; lia|]. intros x buf1 Hlen1.
  apply si_bind; [apply si_store; lia|]. intros _ buf2 Hlen2.
  apply si_bind; [apply si_store; lia|]. intros _ buf3 Hlen3.
  apply IH; lia.
Qed.

Lemma si_std_move_within first last d_first buf :
  first ≤ last → last ≤ length buf → d_first + (last - first) ≤ length buf →
  stays_inside (std_move_within first last d_first) buf.
Proof.
  intros Hfl Hl Hd. unfold std_move_within.
  destruct (Nat.ltb_spec last first); [lia|].
  apply si_move_within_loop; lia.
Qed.

(** A move between two buffers, within both, returns and keeps the slots
    of both. *)
Lemma dt_std_move src first last d_first dst :
  first ≤ last → last ≤ length src → d_first + (last - first) ≤ length dst →
  defined_triple (std_move src first last d_first) dst
    (λ src' dst', length src' = length src ∧ length dst' = length dst)
    (λ _, False).
Proof.
  intros Hfl Hs Hd. unfold defined_triple.
  rewrite std_move_returns by done.
  rewrite !length_app, length_fmap, !length_take, !length_drop. lia.
Qed.

Lemma si_std_move src first last d_first dst :
  first ≤ last → last ≤ length src → d_first + (last - first) ≤ length dst →
  stays_inside (std_move src first last d_first) dst.
Proof.
  intros Hfl Hs Hd. eapply dt_weaken; [by apply dt_std_move | |]; cbv beta.
  - by intros src' dst' [_ Hlen].
  - done.
Qed.

End InsideBuffer.

Section NoUndefined.
Context {T : Type} `{Element T} `{Heap T}.
Implicit Types (v s : SimpleVector T) (buf : list T).

Lemma dt_ArrayPtr_new {X} (n : N) (t : X) :
  defined_triple (ArrayPtr_new n) t
                 (λ b t', t' = t ∧ length b = N.to_nat n) (λ t', t' = t).
Proof.
  unfold defined_triple. destruct (can_allocate n) eqn:Ha.
  - rewrite ArrayPtr_new_returns by done. split; [done | apply length_fresh_buffer].
  - by rewrite ArrayPtr_new_throws.
Qed.

Lemma dt_on_local {X A} (m : St (list T) A) buf (t : X)
    (R : A → list T → Prop) (E : list T → Prop) :
  defined_triple m buf R E →
  defined_triple (on_local m buf) t (λ r t', t' = t ∧ R r.1 r.2) (λ t', t' = t).
Proof. unfold defined_triple, on_local. by destruct (m buf). Qed.

Lemma dt_on_items {A} (m : St (list T) A) v :
  stays_inside m (items_ v) →
  defined_triple (on_items m) v (λ _ s', same_shape v s') (λ s', same_shape v s').
Proof.
  unfold stays_inside, defined_triple, on_items. by destruct (m (items_ v)).
Qed.

Lemma dt_ReallocateCopy (n : N) v :
  N.to_nat (size_ v) ≤ length (items_ v) →
  defined_triple (ReallocateCopy n) v
                 (λ b s', same_shape v s' ∧ length b = N.to_nat n) (λ s', s' = v).
Proof.
  intros Hl. unfold ReallocateCopy.
  eapply dt_bind; [apply dt_ArrayPtr_new | done |].
  intros b s1 [-> Hb]. apply dt_get.
  eapply dt_bind; [eapply dt_on_local, dt_std_move; lia | done |].
  intros [old new] s2 (-> & Hold & Hnew). simpl in Hold, Hnew.
  unfold defined_triple, st_bind, set_items, st_ret.
  split; [by split_and! | lia].
Qed.

Lemma Reserve_defined (n : N) v : consistent v = true → ends_defined (Reserve n) v.
Proof.
  intros (Hs & Hl & Hm)%consistent_spec. unfold ends_defined, Reserve. apply dt_get.
  destruct (capacity_ v <? n)%N; [|done].
  eapply dt_bind; [apply dt_ReallocateCopy; lia | done |]. done.
Qed.

Lemma Resize_defined (n : N) v : consistent v = true → ends_defined (Resize n) v.
Proof.
  intros (Hs & Hl & Hm)%consistent_spec. unfold ends_defined, Resize. apply dt_get.
  eapply dt_bind with (R1 := λ _ _, True) (E1 := λ _, True); [|done|done].
  destruct (N.ltb_spec (capacity_ v) n) as [Hn|].
  - eapply dt_bind; [apply dt_ReallocateCopy; lia | done |].
    intros b s1 [_ Hb].
    eapply dt_bind; [eapply dt_on_local, si_std_fill; lia | done |].
    by intros [u b'] s2 _.
  - destruct (N.ltb_spec (size_ v) n); [|done].
    eapply dt_weaken; [apply dt_on_items, si_std_fill; lia | done | done].
Qed.

(** The write of the new element by either overload of PushBack. *)
Lemma push_defined (write : nat → St (list T) ()) v :
  consistent v = true →
  (∀ i buf, i < length buf → stays_inside (write i) buf) →
  ends_defined
    (let* this := get in
     let new_size := wrap (size_ this + 1) in
     (if (capacity_ this <? new_size)%N then
        set_capacity (N.max (wrap (capacity_ this * 2)) new_size) >>
        let* this' := get in
        let* new_items := ReallocateCopy (capacity_ this') in
        let* (_, new_items) := on_local (write (N.to_nat (size_ this))) new_items in
        let* _ := swap_items new_items in
        st_ret ()
      else on_items (write (N.to_nat (size_ this)))) >>
     set_size new_size) v.
Proof.
  intros (Hs & Hl & Hm)%consistent_spec Hwrite. unfold ends_defined. apply dt_get.
  cbv zeta. rewrite !wrap_small by lia.
  eapply dt_bind with (R1 := λ _ _, True) (E1 := λ _, True); [|done|done].
  destruct (N.ltb_spec (capacity_ v) (size_ v + 1)) as [Hn|].
  - set (g := N.max (capacity_ v * 2) (size_ v + 1)).
    eapply dt_bind with (R1 := λ _ s', s' = {| items_ := items_ v; size_ := size_ v;
                                               capacity_ := g |})
                        (E1 := λ _, True); [done | done |].
    intros _ s1 ->. apply dt_get. cbn [capacity_].
    eapply dt_bind; [apply dt_ReallocateCopy; cbn [items_ size_]; lia | done |].
    intros b s2 [_ Hb].
    eapply dt_bind; [eapply dt_on_local, Hwrite; lia | done |].
    by intros [u b'] s3 _.
  - eapply dt_weaken; [apply dt_on_items, Hwrite; lia | done | done].
Qed.

Lemma PushBack_defined item v : consistent v = true → ends_defined (PushBack item) v.
Proof.
  intros Hv. apply (push_defined (λ i, store_copy i item)); [done|].
  intros i buf. apply si_store_copy.
Qed.

Lemma PushBack_rv_defined item v : consistent v = true → ends_defined (PushBack_rv item) v.
Proof.
  intros Hv. apply (push_defined (λ i, store i item)); [done|].
  intros i buf. apply si_store.
Qed.

Lemma Insert_defined (pos : N) value v :
  consistent v = true → (pos ≤ size_ v)%N → ends_defined (Insert pos value) v.
Proof.
  intros (Hs & Hl & Hm)%consistent_spec Hpos. unfold ends_defined, Insert.
  apply dt_get, dt_assert; [by apply N.leb_le|].
  rewrite !wrap_small by lia.
  eapply dt_bind with (R1 := λ _ _, True) (E1 := λ _, True); [|done|done].
  destruct (N.leb_spec (size_ v + 1) (capacity_ v)) as [Hroom | Hfull].
  - eapply dt_weaken; [apply dt_on_items | done | done].
    apply si_bind; [apply si_std_copy_backward; lia|].
    intros _ buf' Hlen. apply si_store_copy. lia.
  - set (g := N.max (capacity_ v * 2) (size_ v + 1)).
    eapply dt_bind with (R1 := λ _ s', s' = {| items_ := items_ v; size_ := size_ v;
                                               capacity_ := g |})
                        (E1 := λ _, True); [done | done |].
    intros _ s1 ->. apply dt_get. cbn [capacity_].
    eapply dt_bind; [apply dt_ArrayPtr_new | done |].
    intros b s2 [-> Hb].
    eapply dt_bind; [eapply dt_on_local | done | by intros [u b'] s3 _].
    apply si_bind; [apply si_std_copy; lia|]. intros u1 b1 Hb1.
    apply si_bind; [apply si_store_copy; lia|]. intros u2 b2 Hb2.
    apply si_std_copy; lia.
Qed.

Lemma Insert_rv_defined (pos : N) value v :
  consistent v = true → (pos ≤ size_ v)%N → ends_defined (Insert_rv pos value) v.
Proof.
  intros (Hs & Hl & Hm)%consistent_spec Hpos. unfold ends_defined, Insert_rv.
  apply dt_get, dt_assert; [by apply N.leb_le|].
  rewrite !wrap_small by lia.
  eapply dt_bind with (R1 := λ _ _, True) (E1 := λ _, True); [|done|done].
  destruct (N.leb_spec (size_ v + 1) (capacity_ v)) as [Hroom | Hfull].
  - eapply dt_weaken; [apply dt_on_items | done | done].
    apply si_bind; [apply si_std_move_backward; lia|].
    intros _ buf' Hlen. apply si_store. lia.
  - set (g := N.max (capacity_ v * 2) (size_ v + 1)).
    eapply dt_bind with (R1 := λ _ s', s' = {| items_ := items_ v; size_ := size_ v;
                                               capacity_ := g |})
                        (E1 := λ _, True); [done | done |].
    intros _ s1 ->. apply dt_get. cbn [capacity_].
    eapply dt_bind; [apply dt_ArrayPtr_new | done |].
    intros b s2 [-> Hb].
    eapply dt_bind;
      [eapply dt_on_local with (R := λ _ _, True) (E := λ _, True)
      | done | by intros [old b'] s3 _].
    eapply dt_bind; [apply dt_std_move; lia | done |].
    intros old b1 [Hold Hb1].
    eapply dt_bind; [apply si_store; lia | done |].
    intros u b2 Hb2. cbv beta in Hb2.
    eapply dt_weaken; [apply dt_std_move; lia | done | done].
Qed.

Lemma Erase_defined (pos : N) v :
  consistent v = true → (pos < size_ v)%N → ends_defined (Erase pos) v.
Proof.
  intros (Hs & Hl & Hm)%consistent_spec Hpos. unfold ends_defined, Erase.
  apply dt_get, dt_assert; [by apply N.ltb_lt|].
  eapply dt_bind; [apply dt_on_items, si_std_move_within; lia | done | done].
Qed.

Lemma SimpleVector_copy_defined {X} (other : SimpleVector T) (t : X) :
  consistent other = true → ends_defined (SimpleVector_copy other) t.
Proof.
  intros (Hs & Hl & Hm)%consistent_spec. unfold ends_defined, SimpleVector_copy.
  eapply dt_bind; [apply dt_ArrayPtr_new | done |].
  intros b t1 [-> Hb].
  eapply dt_bind; [eapply dt_on_local, si_std_copy; lia | done |].
  by intros [u b'] t2 _.
Qed.

Lemma assign_other_defined (rhs : SimpleVector T) v :
  consistent rhs = true → ends_defined (assign_other rhs) v.
Proof.
  intros Hrhs. unfold ends_defined, assign_other.
  eapply dt_bind with (R1 := λ _ _, True) (E1 := λ _, True);
    [by destruct (IsEmpty rhs) | done |].
  intros _ s1 _.
  eapply dt_bind; [by apply SimpleVector_copy_defined | done | done].
Qed.

Lemma perform_defined (c : mutation T) v :
  consistent v = true → consistent_source c = true → precondition c v = true →
  ends_defined (perform c) v.
Proof.
  intros Hv Hsrc Hpre. destruct c; simpl in *.
  - by apply Reserve_defined.
  - by apply Resize_defined.
  - done.
  - by apply PushBack_defined.
  - by apply PushBack_rv_defined.
  - eapply dt_bind; [apply Insert_defined; [done | by apply N.leb_le] | done | done].
  - eapply dt_bind; [apply Insert_rv_defined; [done | by apply N.leb_le] | done | done].
  - unfold ends_defined, PopBack. apply dt_get. by rewrite Hpre.
  - eapply dt_bind; [apply Erase_defined; [done | by apply N.ltb_lt] | done | done].
  - by apply assign_other_defined.
  - done.
Qed.

Lemma perform_violation (c : mutation T) v :
  precondition c v = false → perform c v = Undefined.
Proof.
  intros Hpre. destruct c; simpl in *; try discriminate.
  - apply bind_undefined. unfold Insert. rewrite bind_get. by apply bind_assert_false.
  - apply bind_undefined. unfold Insert_rv. rewrite bind_get. by apply bind_assert_false.
  - apply negb_false_iff in Hpre. unfold PopBack. rewrite bind_get. by rewrite Hpre.
  - apply bind_undefined. unfold Erase. rewrite bind_get. by apply bind_assert_false.
Qed.

End NoUndefined.

(** X20: no access outside the buffer.  On a consistent object (and, for
    copy assignment, from a consistent source) a mutating call has undefined
    behaviour exactly when the assertion at its head fails: Insert with a
    position beyond end(), Erase with a position at or beyond end(), PopBack
    on an empty container.  Otherwise every slot the call reads or writes
    lies inside the buffer it addresses, and the call returns or throws. *)
Theorem undefined_only_by_failed_assertion :
  ∀ T (E : Element T) (H : Heap T) (c : mutation T) (v : SimpleVector T),
    consistent v = true → consistent_source c = true →
    (perform c v = Undefined ↔ precondition c v = false).
Proof.
  intros T E H c v Hv Hsrc. split.
  - intros Hrun. destruct (precondition c v) eqn:Hpre; [|done].
    pose proof (perform_defined c v Hv Hsrc Hpre) as Hdef.
    unfold ends_defined, defined_triple in Hdef. by rewrite Hrun in Hdef.
  - apply perform_violation.
Qed.

Lemma undefined_only_by_failed_assertion_witness :
  perform (H0 := plentiful) (call_Erase 3%N) one_two_three = Undefined
  ↔ precondition (call_Erase 3%N) one_two_three = false.
Proof.
  apply (undefined_only_by_failed_assertion Z int_element plentiful
           (call_Erase 3%N) one_two_three); reflexivity.
Defined.

